(** * TaskFlow: the task store ([useTasks]) and the title sanitizer

    A shallow embedding of [src/utils/sanitize.ts], [src/hooks/useTasks.ts],
    [src/types/task.ts] and of the handlers of [src/components/AddTask.tsx],
    [src/components/TaskList.tsx] and [src/components/TaskItem.tsx] that call
    the store, with the properties of the specification stated over it. *)

From Stdlib Require Strings.String Strings.Ascii.
From Stdlib Require Import NArith Lia.
From stdpp Require Import base numbers option list.
Import String.StringSyntax.
Delimit Scope string_scope with string.

Set Default Proof Using "Type".

(** ** JavaScript strings

    A JavaScript string is a sequence of UTF-16 code units; a code unit is
    modelled as a number in [N]. *)

Definition str := list N.

(** [u16 "abc"] is the JavaScript string of an ASCII literal. *)
Definition u16 (s : String.string) : str :=
  map Ascii.N_of_ascii (String.list_ascii_of_string s).
Arguments u16 s%_string.

(** The one-character literal, for patterns. *)
Definition chr (s : String.string) : N :=
  match s with
  | String.String a _ => Ascii.N_of_ascii a
  | String.EmptyString => 0%N
  end.
Arguments chr s%_string.

(** ECMAScript [WhiteSpace] and [LineTerminator] code points: what [\s]
    matches and what [String.prototype.trim] removes. *)
Definition is_space (c : N) : bool :=
  ((9 <=? c) && (c <=? 13) || (c =? 32) || (c =? 160) || (c =? 0x1680)
   || (0x2000 <=? c) && (c <=? 0x200A)
   || (c =? 0x2028) || (c =? 0x2029) || (c =? 0x202F) || (c =? 0x205F)
   || (c =? 0x3000) || (c =? 0xFEFF))%N.

(** [\w]: the word characters that decide [\b]. *)
Definition is_word (c : N) : bool :=
  ((97 <=? c) && (c <=? 122) || (65 <=? c) && (c <=? 90)
   || (48 <=? c) && (c <=? 57) || (c =? 95))%N.

(** [Canonicalize] of a non-unicode, ignore-case pattern.  Every literal of
    the patterns below is ASCII, and a code unit above 127 never folds to an
    ASCII one, so folding the ASCII lower-case letters is all that can make
    two characters agree. *)
Definition canonicalize (c : N) : N :=
  if ((97 <=? c) && (c <=? 122))%N then (c - 32)%N else c.

Definition chr_eq (ignoreCase : bool) (a b : N) : bool :=
  if ignoreCase then (canonicalize a =? canonicalize b)%N else (a =? b)%N.

Fixpoint dropWhile {A} (p : A → bool) (l : list A) : list A :=
  match l with
  | [] => []
  | x :: l' => if p x then dropWhile p l' else l
  end.

(** [String.prototype.trim]. *)
Definition trim (s : str) : str :=
  rev (dropWhile is_space (rev (dropWhile is_space s))).

(** ** Regular expressions

    The fragment of ECMAScript patterns the sanitizer uses, with the
    backtracking semantics of the language: alternatives are tried left to
    right, [?] and [*] are greedy, [*?] is lazy.  Every starred term of the
    source is a character class, so [Star] and [LazyStar] take a class. *)

Inductive regex :=
| Eps
| Chr (c : N)                  (* a pattern character *)
| Cls (p : N → bool)           (* a character class: [^>], \s, [\s\S] *)
| Cat (r1 r2 : regex)
| Alt (r1 r2 : regex)          (* r1|r2 *)
| Opt (r : regex)              (* r? *)
| Star (p : N → bool)          (* [..]* *)
| LazyStar (p : N → bool)      (* [..]*? *)
| Grp (r : regex)              (* ( r ), the capture $1 *)
| NotAhead (r : regex)         (* (?! r ) *)
| WordB.                       (* \b *)

Fixpoint txt_of (l : str) : regex :=
  match l with
  | [] => Eps
  | c :: l' => Cat (Chr c) (txt_of l')
  end.

(** A run of pattern characters. *)
Definition txt (s : String.string) : regex := txt_of (u16 s).
Arguments txt s%_string.

Definition seq (rs : list regex) : regex := foldr Cat Eps rs.

(** [[..]+] *)
Definition Plus (p : N → bool) : regex := Cat (Cls p) (Star p).

(** The state of a match: the character before the current position (for
    [\b]), the rest of the input, and the capture. *)
Definition answer : Type := str * option str.
Definition cont : Type := option N → str → option str → option answer.

Definition word_before (prev : option N) : bool :=
  match prev with Some c => is_word c | None => false end.
Definition word_here (s : str) : bool :=
  match s with c :: _ => is_word c | [] => false end.

Section Exec.
Variable ignoreCase : bool.

Fixpoint exec (r : regex) (prev : option N) (s : str) (cap : option str)
    (k : cont) {struct r} : option answer :=
  match r with
  | Eps => k prev s cap
  | Chr c =>
      match s with
      | x :: s' => if chr_eq ignoreCase c x then k (Some x) s' cap else None
      | [] => None
      end
  | Cls p =>
      match s with
      | x :: s' => if p x then k (Some x) s' cap else None
      | [] => None
      end
  | Cat r1 r2 =>
      exec r1 prev s cap (λ prev' s' cap', exec r2 prev' s' cap' k)
  | Alt r1 r2 =>
      match exec r1 prev s cap k with
      | Some a => Some a
      | None => exec r2 prev s cap k
      end
  | Opt r1 =>
      match exec r1 prev s cap k with
      | Some a => Some a
      | None => k prev s cap
      end
  | Star p =>
      (fix star (prev : option N) (s : str) {struct s} : option answer :=
         match s with
         | x :: s' =>
             if p x then
               match star (Some x) s' with
               | Some a => Some a
               | None => k prev s cap
               end
             else k prev s cap
         | [] => k prev s cap
         end) prev s
  | LazyStar p =>
      (fix lazy (prev : option N) (s : str) {struct s} : option answer :=
         match k prev s cap with
         | Some a => Some a
         | None =>
             match s with
             | x :: s' => if p x then lazy (Some x) s' else None
             | [] => None
             end
         end) prev s
  | Grp r1 =>
      exec r1 prev s cap
        (λ prev' s' _, k prev' s' (Some (take (length s - length s') s)))
  | NotAhead r1 =>
      match exec r1 prev s cap (λ _ s' cap', Some (s', cap')) with
      | Some _ => None
      | None => k prev s cap
      end
  | WordB =>
      if xorb (word_before prev) (word_here s) then k prev s cap else None
  end.

(** The match of [r] that starts exactly here: the number of characters it
    consumes and its capture. *)
Definition match_here (r : regex) (prev : option N) (s : str)
    : option (nat * option str) :=
  match exec r prev s None (λ _ s' cap, Some (s', cap)) with
  | Some (s', cap) => Some (length s - length s', cap)
  | None => None
  end.

(** [s.replace(/r/g, repl)]: scan left to right; where the pattern matches,
    emit the replacement and resume after the match (one character further
    when the match is empty); elsewhere copy the character.  [skip] counts
    the characters of the current match still to be passed over. *)
Fixpoint replace_from (r : regex) (repl : option str → str)
    (skip : nat) (prev : option N) (s : str) {struct s} : str :=
  match skip with
  | S n =>
      match s with
      | x :: s' => replace_from r repl n (Some x) s'
      | [] => []
      end
  | O =>
      match match_here r prev s with
      | Some (n, cap) =>
          repl cap ++
          match s with
          | x :: s' =>
              match n with
              | O => x :: replace_from r repl 0 (Some x) s'
              | S n' => replace_from r repl n' (Some x) s'
              end
          | [] => []
          end
      | None =>
          match s with
          | x :: s' => x :: replace_from r repl 0 (Some x) s'
          | [] => []
          end
      end
  end.

Definition replace (r : regex) (repl : option str → str) (s : str) : str :=
  replace_from r repl 0 None s.
End Exec.

(** Replacement templates: a constant string, and ['<$1>']. *)
Definition const_repl (s : String.string) : option str → str := λ _, u16 s.
Arguments const_repl s%_string.
Definition dollar1 (cap : option str) : str := default [] cap.
(** The empty replacement. *)
Definition remove : option str → str := λ _, [].

Definition not_gt (c : N) : bool := negb (c =? chr ">")%N.
Definition any_char (c : N) : bool := is_space c || negb (is_space c).

(** ** [src/utils/sanitize.ts] *)
Module Sanitize.

(** [/<b( \s [^>]* )?>/gi] and [/<i( \s [^>]* )?>/gi]  (patterns are quoted
    with blanks between some of their tokens). *)
Definition re_open (name : String.string) : regex :=
  seq [txt "<"; txt name; Opt (Grp (seq [Cls is_space; Star not_gt])); txt ">"].
Arguments re_open name%_string.

(** [/<\/b>/gi] and [/<\/i>/gi] *)
Definition re_close (name : String.string) : regex :=
  seq [txt "</"; txt name; txt ">"].
Arguments re_close name%_string.

(** [/<(?! \/? (?:strong|em|u) \b ) [^>]* >/gi] *)
Definition re_disallowed : regex :=
  seq [txt "<";
       NotAhead (seq [Opt (txt "/");
                      Alt (txt "strong") (Alt (txt "em") (txt "u"));
                      WordB]);
       Star not_gt; txt ">"].

Definition sanitizeTitle (html : str) : str :=
  trim
    (replace true re_disallowed remove
    (replace true (re_close "i") (const_repl "</em>")
    (replace true (re_open "i") (const_repl "<em>")
    (replace true (re_close "b") (const_repl "</strong>")
    (replace true (re_open "b") (const_repl "<strong>") html))))).

(** [/< [^>]+ >/g] *)
Definition re_tag : regex := seq [txt "<"; Plus not_gt; txt ">"].

Definition plainText (html : str) : str :=
  trim (replace false re_tag remove html).

End Sanitize.

(** ** The variant of [sanitize.ts] found in [unnamed/part_000]

    It adds a first rule that removes whole [script] elements and a last rule
    that strips the attributes of the allowed tags. *)
Module SanitizePart000.
Import Sanitize.

(** [/<script [^>]* > [\s\S]*? <\/script>/gi] *)
Definition re_script : regex :=
  seq [txt "<script"; Star not_gt; txt ">"; LazyStar any_char; txt "</script>"].

(** [/<(strong|em|u) \s [^>]* >/gi] *)
Definition re_attrs : regex :=
  seq [txt "<"; Grp (Alt (txt "strong") (Alt (txt "em") (txt "u")));
       Cls is_space; Star not_gt; txt ">"].

Definition sanitizeTitle (html : str) : str :=
  trim
    (replace true re_attrs (λ cap, u16 "<" ++ dollar1 cap ++ u16 ">")
    (replace true re_disallowed remove
    (replace true (re_close "i") (const_repl "</em>")
    (replace true (re_open "i") (const_repl "<em>")
    (replace true (re_close "b") (const_repl "</strong>")
    (replace true (re_open "b") (const_repl "<strong>")
    (replace true re_script remove html))))))).

Definition plainText (html : str) : str := Sanitize.plainText html.

End SanitizePart000.

(** ** What the sanitizer promises

    The tags of a string are what an HTML tokenizer reads as a start or end
    tag: the matches of [/< \/? [a-z] [^>]* >/gi].  The output is clean when
    each of them is one of the six bare allowed tags. *)

Section Matches.
Variable ignoreCase : bool.

(** [s.match(/r/g)]: the matched substrings, left to right. *)
Fixpoint matches_from (r : regex) (skip : nat) (prev : option N) (s : str)
    {struct s} : list str :=
  match skip with
  | S n =>
      match s with
      | x :: s' => matches_from r n (Some x) s'
      | [] => []
      end
  | O =>
      match match_here ignoreCase r prev s with
      | Some (n, _) =>
          take n s ::
          match s with
          | x :: s' => matches_from r (pred n) (Some x) s'
          | [] => []
          end
      | None =>
          match s with
          | x :: s' => matches_from r 0 (Some x) s'
          | [] => []
          end
      end
  end.
End Matches.

Definition is_alpha (c : N) : bool :=
  ((97 <=? c) && (c <=? 122) || (65 <=? c) && (c <=? 90))%N.

Definition tags (s : str) : list str :=
  matches_from true
    (seq [txt "<"; Opt (txt "/"); Cls is_alpha; Star not_gt; txt ">"]) 0 None s.

Definition bare_tags : list str :=
  [u16 "<strong>"; u16 "</strong>"; u16 "<em>"; u16 "</em>"; u16 "<u>"; u16 "</u>"].

Definition only_bare_tags (s : str) : bool :=
  forallb (λ t, bool_decide (t ∈ bare_tags)) (tags s).

(** ** [src/types/task.ts] *)

Inductive Priority := low | medium | high.

Module FilterStatus.
Inductive t := all | active | completed.
End FilterStatus.

(** [Priority | 'all'] *)
Module PriorityFilter.
Inductive t := all | only (p : Priority).
End PriorityFilter.

Record Task := {
  id : str;
  title : str;
  completed : bool;
  priority : Priority;
  createdAt : str;
  dueDate : option str;
}.

Record NewTaskInput := {
  input_title : str;
  input_priority : Priority;
  input_dueDate : option str;
}.

Global Instance Priority_eq_dec : EqDecision Priority.
Proof. solve_decision. Defined.
Global Instance Task_eq_dec : EqDecision Task.
Proof. solve_decision. Defined.

(** ** [src/hooks/useTasks.ts] *)

(** What a JavaScript call can throw. *)
Inductive JsError :=
| DOMException (code : N) (name : str)
| OtherError (name : str).

Inductive result (A : Type) :=
| Ok (a : A)
| Throw (e : JsError).
Arguments Ok {A} a.
Arguments Throw {A} e.

Definition bind {A B} (r : result A) (f : A → result B) : result B :=
  match r with
  | Ok a => f a
  | Throw e => Throw e
  end.

(** [try { body } catch (err) { handler }] *)
Definition try_catch {A} (body : result A) (handler : JsError → result A)
    : result A :=
  match body with
  | Ok a => Ok a
  | Throw e => handler e
  end.

(** The browser's [localStorage], as far as the hook uses it: both calls may
    throw (a [SecurityError] when storage is disabled, a quota error when it
    is full). *)
Record LocalStorage := {
  getItem : str → result (option str);
  setItem : str → str → result unit;
}.

Definition STORAGE_KEY : str := u16 "taskflow-tasks".

Inductive StorageError := full | disabled.

(** The object [stats] of the hook. *)
Module Stats.
Record t := { total : nat; active : nat; completed : nat }.
End Stats.

Definition isQuotaError (err : JsError) : bool :=
  match err with
  | DOMException code name =>
      (code =? 22)%N
      || bool_decide (name = u16 "QuotaExceededError")
      || bool_decide (name = u16 "NS_ERROR_DOM_QUOTA_REACHED")
  | OtherError _ => false
  end.

(** What a state updater hands back to [setTasks]: the array it was given
    (React then bails out, nothing re-renders and no effect runs), or a new
    array. *)
Inductive update :=
| Same
| New (next : list Task).

Definition contents (prev : list Task) (u : update) : list Task :=
  match u with
  | Same => prev
  | New next => next
  end.

(** [Array.prototype.findIndex]; [None] stands for [-1]. *)
Fixpoint findIndex {A} (p : A → bool) (l : list A) : option nat :=
  match l with
  | [] => None
  | x :: l' => if p x then Some 0 else S <$> findIndex p l'
  end.

(** [arrayMove] of [@dnd-kit/sortable]:
    [newArray = array.slice();
     newArray.splice(to, 0, newArray.splice(from, 1)[0])]
    for [to >= 0].  With [from] out of range JavaScript would insert
    [undefined]; that case is [None] here. *)
Definition arrayMove {A} (array : list A) (from to : nat) : option (list A) :=
  match array !! from with
  | Some x =>
      let newArray := delete from array in
      Some (take to newArray ++ x :: drop to newArray)
  | None => None
  end.

Section UseTasks.
(** [JSON.parse] and [JSON.stringify], at the type the hook casts to. *)
Variable JSON_parse : str → result (list Task).
Variable JSON_stringify : list Task → str.

Definition loadTasks (localStorage : LocalStorage) : result (list Task) :=
  try_catch
    (bind (getItem localStorage STORAGE_KEY) (λ stored,
       match stored with
       | Some (c :: s) => JSON_parse (c :: s)
       | Some [] | None => Ok []          (* null and '' are falsy *)
       end))
    (λ _, Ok []).

Record State := {
  tasks : list Task;
  filterStatus : FilterStatus.t;
  filterPriority : PriorityFilter.t;
  storageError : option StorageError;
}.

(** The effect on [[tasks]]: one save attempt. *)
Definition save_effect (localStorage : LocalStorage) (tasks : list Task)
    : option StorageError :=
  match setItem localStorage STORAGE_KEY (JSON_stringify tasks) with
  | Ok _ => None
  | Throw err => Some (if isQuotaError err then full else disabled)
  end.

(** [setTasks(updater)], followed by the render and its effect. *)
Definition setTasks (localStorage : LocalStorage)
    (updater : list Task → update) (st : State) : State :=
  match updater (tasks st) with
  | Same => st
  | New next =>
      {| tasks := next;
         filterStatus := filterStatus st;
         filterPriority := filterPriority st;
         storageError := save_effect localStorage next |}
  end.

(** The first render: [useState(loadTasks)], then the effect runs once. *)
Definition init (localStorage : LocalStorage) : result State :=
  bind (loadTasks localStorage) (λ loaded,
    Ok {| tasks := loaded;
          filterStatus := FilterStatus.all;
          filterPriority := PriorityFilter.all;
          storageError := save_effect localStorage loaded |}).

(** [addTask]; [uuid] is what [crypto.randomUUID()] returns and [now] what
    [new Date().toISOString()] returns at the call. *)
Definition new_task (input : NewTaskInput) (uuid now : str) : Task :=
  {| id := uuid;
     title := trim (input_title input);
     completed := false;
     priority := input_priority input;
     createdAt := now;
     dueDate := input_dueDate input |}.

Definition addTask (input : NewTaskInput) (uuid now : str)
    (prev : list Task) : update :=
  New (new_task input uuid now :: prev).

Definition toggle (t : Task) : Task :=
  {| id := id t;
     title := title t;
     completed := negb (completed t);
     priority := priority t;
     createdAt := createdAt t;
     dueDate := dueDate t |}.

Definition toggleTask (i : str) (prev : list Task) : update :=
  New (map (λ t, if bool_decide (id t = i) then toggle t else t) prev).

Definition deleteTask (i : str) (prev : list Task) : update :=
  New (List.filter (λ t, negb (bool_decide (id t = i))) prev).

Definition clearCompleted (prev : list Task) : update :=
  New (List.filter (λ t, negb (completed t)) prev).

Definition retitle (new_title : str) (t : Task) : Task :=
  {| id := id t;
     title := new_title;
     completed := completed t;
     priority := priority t;
     createdAt := createdAt t;
     dueDate := dueDate t |}.

Definition updateTask (i new_title : str) (prev : list Task) : update :=
  New (map (λ t, if bool_decide (id t = i) then retitle new_title t else t) prev).

Definition reorderTasks (activeId overId : str) (prev : list Task) : update :=
  match findIndex (λ t, bool_decide (id t = activeId)) prev,
        findIndex (λ t, bool_decide (id t = overId)) prev with
  | Some oldIndex, Some newIndex =>
      match arrayMove prev oldIndex newIndex with
      | Some moved => New moved
      | None => Same               (* not reached: oldIndex is in range *)
      end
  | _, _ => Same
  end.

Definition statusMatch (f : FilterStatus.t) (t : Task) : bool :=
  match f with
  | FilterStatus.all => true
  | FilterStatus.active => negb (completed t)
  | FilterStatus.completed => completed t
  end.

Definition priorityMatch (f : PriorityFilter.t) (t : Task) : bool :=
  match f with
  | PriorityFilter.all => true
  | PriorityFilter.only p => bool_decide (priority t = p)
  end.

Definition filteredTasks (st : State) : list Task :=
  List.filter
    (λ t, statusMatch (filterStatus st) t && priorityMatch (filterPriority st) t)
    (tasks st).

Definition stats (st : State) : Stats.t :=
  {| Stats.total := length (tasks st);
     Stats.active := length (List.filter (λ t, negb (completed t)) (tasks st));
     Stats.completed := length (List.filter (λ t, completed t) (tasks st)) |}.

Definition setFilterStatus (f : FilterStatus.t) (st : State) : State :=
  {| tasks := tasks st;
     filterStatus := f;
     filterPriority := filterPriority st;
     storageError := storageError st |}.

Definition setFilterPriority (f : PriorityFilter.t) (st : State) : State :=
  {| tasks := tasks st;
     filterStatus := filterStatus st;
     filterPriority := f;
     storageError := storageError st |}.

(** The calls a view can make on the hook.  [Add] carries what the
    environment supplies during the call. *)
Inductive Action :=
| Add (input : NewTaskInput) (uuid now : str)
| Toggle (i : str)
| Delete (i : str)
| ClearCompleted
| Update (i new_title : str)
| Reorder (activeId overId : str)
| SetFilterStatus (f : FilterStatus.t)
| SetFilterPriority (f : PriorityFilter.t).

(** What an action does to the array held in memory. *)
Definition updater (a : Action) : list Task → update :=
  match a with
  | Add input uuid now => addTask input uuid now
  | Toggle i => toggleTask i
  | Delete i => deleteTask i
  | ClearCompleted => clearCompleted
  | Update i new_title => updateTask i new_title
  | Reorder activeId overId => reorderTasks activeId overId
  | SetFilterStatus _ | SetFilterPriority _ => λ _, Same
  end.

Definition dispatch (localStorage : LocalStorage) (a : Action) (st : State)
    : State :=
  match a with
  | SetFilterStatus f => setFilterStatus f st
  | SetFilterPriority f => setFilterPriority f st
  | _ => setTasks localStorage (updater a) st
  end.

(** A run of the hook, one call per render: each call with the storage it
    meets. *)
Definition run (calls : list (LocalStorage * Action)) (st : State) : State :=
  foldl (λ st c, dispatch c.1 c.2 st) st calls.

(** States the hook can be in: the first render, then any calls. *)
Inductive reachable : State → Prop :=
| reachable_init localStorage st :
    init localStorage = Ok st → reachable st
| reachable_step localStorage a st :
    reachable st → reachable (dispatch localStorage a st).

(** [submit] of [src/components/AddTask.tsx], with [onAdd] bound to
    [addTask] as [App.tsx] does: [html] is the editor's [innerHTML] (or ['']),
    [dueDate] the date field.  Only its effect on the store is kept. *)
Definition submit (localStorage : LocalStorage) (uuid now : str)
    (html : str) (priority : Priority) (dueDate : str) (st : State) : State :=
  match Sanitize.plainText html with
  | [] => st                                     (* if (!text) return *)
  | _ :: _ =>
      dispatch localStorage
        (Add {| input_title := Sanitize.sanitizeTitle html;
                input_priority := priority;
                input_dueDate := match dueDate with [] => None | _ => Some dueDate end |}
             uuid now)
        st
  end.
End UseTasks.

(** ** Sequences of [addTask] calls *)

(** One call: the storage it meets, its argument, and what
    [crypto.randomUUID()] and the clock return during it. *)
Definition add_call : Type := LocalStorage * NewTaskInput * str * str.

Definition add_action (c : add_call) : LocalStorage * Action :=
  let '(localStorage, input, uuid, now) := c in (localStorage, Add input uuid now).

Definition added (c : add_call) : Task :=
  let '(_, input, uuid, now) := c in
  {| id := uuid;
     title := trim (input_title input);
     completed := false;
     priority := input_priority input;
     createdAt := now;
     dueDate := input_dueDate input |}.

Abbreviation has_id i := (λ t : Task, bool_decide (id t = i)).

(** ** The views that call the hook

    The handlers of [src/components/TaskList.tsx], [src/components/AddTask.tsx]
    and [src/components/TaskItem.tsx] that reach the store, with the props
    bound as [App.tsx] binds them. *)

Module TaskList.
(** [handleDragEnd] of [TaskList.tsx]: [over] is [None] when the drag ends
    outside every item. *)
Definition handleDragEnd (JSON_stringify : list Task → str)
    (localStorage : LocalStorage) (active : str) (over : option str)
    (st : State) : State :=
  match over with
  | Some over_id =>
      if bool_decide (active ≠ over_id)
      then dispatch JSON_stringify localStorage (Reorder active over_id) st
      else st
  | None => st
  end.
End TaskList.

Module AddTask.
(** The state of the component of [AddTask.tsx]: the editor's [innerHTML] and
    the [useState] cells; [activeFormats] is (bold, italic, underline). *)
Record Form := {
  innerHTML : str;
  priority_choice : Priority;
  dueDate_field : str;
  expanded : bool;
  hasContent : bool;
  activeFormats : bool * bool * bool;
}.

(** The form as it is first rendered. *)
Definition initial : Form :=
  {| innerHTML := [];
     priority_choice := medium;
     dueDate_field := [];
     expanded := false;
     hasContent := false;
     activeFormats := (false, false, false) |}.

(** The browser has put [html] in the editor; [handleInput] then runs, with
    [formats] what [document.queryCommandState] reports. *)
Definition handleInput (html : str) (formats : bool * bool * bool) (f : Form)
    : Form :=
  {| innerHTML := html;
     priority_choice := priority_choice f;
     dueDate_field := dueDate_field f;
     expanded := expanded f;
     hasContent := match Sanitize.plainText html with [] => false | _ :: _ => true end;
     activeFormats := formats |}.

Section Submit.
Variable JSON_stringify : list Task → str.
Variables (localStorage : LocalStorage) (uuid now : str).

(** [submit], with the form it leaves behind. *)
Definition submit_form (p : Form * State) : Form * State :=
  let (f, st) := p in
  match Sanitize.plainText (innerHTML f) with
  | [] => (f, st)
  | _ :: _ =>
      ({| innerHTML := [];
          priority_choice := medium;
          dueDate_field := [];
          expanded := false;
          hasContent := false;
          activeFormats := (false, false, false) |},
       submit JSON_stringify localStorage uuid now
         (innerHTML f) (priority_choice f) (dueDate_field f) st)
  end.

(** [handleKeyDown]: [key] is [e.key]. *)
Definition handleKeyDown (key : str) (shiftKey : bool) (p : Form * State)
    : Form * State :=
  let p1 :=
    if bool_decide (key = u16 "Enter") && negb shiftKey
    then submit_form p else p in
  if bool_decide (key = u16 "Escape")
  then ({| innerHTML := innerHTML p1.1;
           priority_choice := priority_choice p1.1;
           dueDate_field := dueDate_field p1.1;
           expanded := false;
           hasContent := hasContent p1.1;
           activeFormats := activeFormats p1.1 |}, p1.2)
  else p1.
End Submit.
End AddTask.

Module TaskItem.
(** [save] of [TaskItem.tsx] for the item of [task], [html] being the
    editor's [innerHTML]; only its effect on the store is kept. *)
Definition save (JSON_stringify : list Task → str)
    (localStorage : LocalStorage) (html : str) (task : Task) (st : State)
    : State :=
  match Sanitize.plainText html with
  | [] => st
  | _ :: _ =>
      dispatch JSON_stringify localStorage
        (Update (id task) (Sanitize.sanitizeTitle html)) st
  end.
End TaskItem.

(** ** Sample environments and data, for the examples *)

(** [f] maps the literal [input] to the literal [output]. *)
Definition gives (f : str → str) (input output : String.string) : Prop :=
  f (u16 input) = u16 output.
Arguments gives f (input output)%_string.

Definition QuotaExceededError : JsError := DOMException 22 (u16 "QuotaExceededError").
Definition SecurityError : JsError := DOMException 18 (u16 "SecurityError").
Definition SyntaxError : JsError := OtherError (u16 "SyntaxError").

Definition storage_ok : LocalStorage :=
  {| getItem := λ _, Ok None; setItem := λ _ _, Ok () |}.
Definition storage_full : LocalStorage :=
  {| getItem := λ _, Ok None; setItem := λ _ _, Throw QuotaExceededError |}.
Definition storage_disabled : LocalStorage :=
  {| getItem := λ _, Throw SecurityError; setItem := λ _ _, Throw SecurityError |}.
Definition storage_corrupt : LocalStorage :=
  {| getItem := λ _, Ok (Some (u16 "not valid json {{{{")); setItem := λ _ _, Ok () |}.

(** Stand-ins for [JSON.parse] and [JSON.stringify] on the sample data: only
    the empty array parses, and the serialisation is not looked at. *)
Definition sample_parse (s : str) : result (list Task) :=
  if bool_decide (s = u16 "[]") then Ok [] else Throw SyntaxError.
Definition sample_stringify (l : list Task) : str :=
  match l with [] => u16 "[]" | _ :: _ => u16 "[...]" end.

Definition sample_task (i : String.string) (is_done : bool) : Task :=
  {| id := u16 i; title := u16 "Pre-existing task"; completed := is_done;
     priority := medium; createdAt := u16 "2026-01-01T00:00:00.000Z";
     dueDate := None |}.
Arguments sample_task i%_string is_done.

Definition sample_tasks : list Task :=
  [sample_task "c" false; sample_task "b" true; sample_task "a" false].

Definition sample_input : NewTaskInput :=
  {| input_title := u16 "  Buy groceries  "; input_priority := high;
     input_dueDate := Some (u16 "2026-12-31") |}.

Definition sample_state (l : list Task) (e : option StorageError) : State :=
  {| tasks := l; filterStatus := FilterStatus.all;
     filterPriority := PriorityFilter.all; storageError := e |}.

(** ** Auxiliary notions for the proofs *)

Definition all_space (ws : str) : Prop := Forall (λ c, is_space c = true) ws.

(** The plain-text pattern read directly: a match at the head of [s] is a
    [<], one character that is not [>], and everything up to the next [>];
    [tag_rest s] is what follows the match. *)
Definition tag_rest (s : str) : option str :=
  match s with
  | x :: y :: s2 =>
      if (60 =? x)%N && not_gt y then
        match dropWhile not_gt s2 with
        | _ :: rest => Some rest
        | [] => None
        end
      else None
  | _ => None
  end.

Abbreviation strip_from := (replace_from false Sanitize.re_tag remove).
Abbreviation strip := (replace false Sanitize.re_tag remove).

(** No tag starts anywhere in [s]. *)
Fixpoint tag_free (s : str) : Prop :=
  match s with
  | [] => True
  | _ :: s' => tag_rest s = None ∧ tag_free s'
  end.

(** Patterns that can only match at a [<]. *)
Definition opens_with_lt (r : regex) : Prop :=
  ∃ r1 r2, r = Cat (Cat (Chr (chr "<")) r1) r2.

(** The character before the position reached after [t]. *)
Definition prev_after (prev : option N) (t : str) : option N :=
  match last t with
  | Some c => Some c
  | None => prev
  end.

(** What may stand between a tag name and the closing [>]: nothing, or a
    blank followed by characters other than [<] and [>]. *)
Definition attribute_part (a : str) : Prop :=
  a = [] ∨ ∃ sp attrs, a = sp :: attrs ∧ is_space sp = true
                       ∧ (chr "<" ∉ attrs) ∧ (chr ">" ∉ attrs).

(** The state with both filters set. *)
Definition with_filters (fs : FilterStatus.t) (fp : PriorityFilter.t)
    (st : State) : State :=
  setFilterPriority fp (setFilterStatus fs st).

(** * Properties *)

(** Closes a decidable goal about concrete data by evaluation. *)
Ltac by_evaluation := apply (bool_decide_unpack _); vm_compute; exact I.

(** ** Trimming and the plain-text view *)

Section DropWhile.
Context {A : Type} (p : A → bool).

Lemma dropWhile_all (ws s : list A) :
  Forall (λ x, p x = true) ws → dropWhile p (ws ++ s) = dropWhile p s.
Proof. induction 1 as [|x ws Hx _ IH]; simpl; [done|]. by rewrite Hx. Qed.

Lemma dropWhile_all_nil (ws : list A) :
  Forall (λ x, p x = true) ws → dropWhile p ws = [].
Proof.
  intros H. rewrite <- (app_nil_r ws). by rewrite dropWhile_all.
Qed.

Lemma dropWhile_split (l : list A) :
  ∃ ws, Forall (λ x, p x = true) ws ∧ l = ws ++ dropWhile p l.
Proof.
  induction l as [|x l [ws [Hws Hl]]]; simpl.
  - by exists [].
  - destruct (p x) eqn:Hx.
    + exists (x :: ws). split; [by constructor|]. simpl. by rewrite <- Hl.
    + by exists [].
Qed.

Lemma dropWhile_app (s t : list A) :
  dropWhile p (s ++ t) =
  match dropWhile p s with
  | [] => dropWhile p t
  | _ :: _ => dropWhile p s ++ t
  end.
Proof.
  induction s as [|x s IH]; simpl.
  - by destruct (dropWhile p t).
  - by destruct (p x).
Qed.
End DropWhile.

Lemma all_space_rev ws : all_space ws → all_space (rev ws).
Proof. apply List.Forall_rev. Qed.

Lemma trim_space_l ws s : all_space ws → trim (ws ++ s) = trim s.
Proof. intros H. unfold trim. by rewrite dropWhile_all. Qed.

Lemma trim_space_r s ws : all_space ws → trim (s ++ ws) = trim s.
Proof.
  intros H. unfold trim. rewrite dropWhile_app.
  destruct (dropWhile is_space s) as [|x d] eqn:Hd.
  - by rewrite (dropWhile_all_nil _ ws H).
  - rewrite rev_app_distr. rewrite dropWhile_all; [done|]. by apply all_space_rev.
Qed.

Lemma trim_split s :
  ∃ ws1 ws2, all_space ws1 ∧ all_space ws2 ∧ s = ws1 ++ trim s ++ ws2.
Proof.
  destruct (dropWhile_split is_space s) as [ws1 [H1 Hs]].
  destruct (dropWhile_split is_space (rev (dropWhile is_space s))) as [ws2 [H2 Hr]].
  exists ws1, (rev ws2). split; [done|]. split; [by apply all_space_rev|].
  unfold trim. rewrite <- rev_app_distr, <- Hr, rev_involutive. done.
Qed.

Lemma txt_lt : txt "<" = Cat (Chr 60) Eps.
Proof. reflexivity. Qed.
Lemma txt_gt : txt ">" = Cat (Chr 62) Eps.
Proof. reflexivity. Qed.

Lemma not_gt_false x : not_gt x = false → (62 =? x)%N = true.
Proof.
  unfold not_gt. change (chr ">") with 62%N. rewrite negb_false_iff, !N.eqb_eq. done.
Qed.
Lemma not_gt_true x : not_gt x = true → (62 =? x)%N = false.
Proof.
  unfold not_gt. change (chr ">") with 62%N. rewrite negb_true_iff, !N.eqb_neq. done.
Qed.

Lemma exec_star_gt prev s cap :
  exec false (Cat (Star not_gt) (Cat (Cat (Chr 62) Eps) Eps)) prev s cap
    (λ _ s' cap', Some (s', cap'))
  = match dropWhile not_gt s with
    | _ :: rest => Some (rest, cap)
    | [] => None
    end.
Proof.
  cbn [exec]. revert prev.
  induction s as [|x s IH]; intros prev; [done|].
  cbn [dropWhile]. destruct (not_gt x) eqn:Hx.
  - rewrite IH. unfold chr_eq. rewrite (not_gt_true _ Hx).
    by destruct (dropWhile not_gt s).
  - unfold chr_eq. by rewrite (not_gt_false _ Hx).
Qed.

Lemma exec_re_tag prev s :
  exec false Sanitize.re_tag prev s None (λ _ s' cap', Some (s', cap'))
  = (λ rest, (rest, None)) <$> tag_rest s.
Proof.
  unfold Sanitize.re_tag, seq, Plus. rewrite txt_lt, txt_gt. cbn [foldr].
  destruct s as [|x [|y s2]]; cbn [exec tag_rest]; [done|..];
    change (chr_eq false 60 x) with (60 =? x)%N.
  - by destruct (60 =? x)%N.
  - destruct (60 =? x)%N; [|done]. cbn [andb].
    destruct (not_gt y); [|done].
    pose proof (exec_star_gt (Some y) s2 None) as H. cbn [exec] in H.
    rewrite H. by destruct (dropWhile not_gt s2).
Qed.

Lemma tag_rest_length s rest : tag_rest s = Some rest → length rest < length s.
Proof.
  destruct s as [|x [|y s2]]; simpl; try done.
  destruct (_ && _); [|done].
  destruct (dropWhile_split not_gt s2) as [ws [_ Hs]].
  destruct (dropWhile not_gt s2) as [|g r]; [done|].
  intros [= <-]. simpl. rewrite Hs, length_app. simpl. lia.
Qed.

Lemma tag_rest_snoc s w :
  not_gt w = true → tag_rest (s ++ [w]) = (λ rest, rest ++ [w]) <$> tag_rest s.
Proof.
  intros Hw. destruct s as [|x [|y s2]]; simpl.
  - done.
  - rewrite Hw. by destruct (_ && _).
  - destruct (_ && _); [|done]. rewrite dropWhile_app.
    destruct (dropWhile not_gt s2); simpl; [|done]. by rewrite Hw.
Qed.

Lemma match_here_re_tag prev s :
  match_here false Sanitize.re_tag prev s
  = (λ rest, (length s - length rest, None)) <$> tag_rest s.
Proof.
  unfold match_here. rewrite exec_re_tag. by destruct (tag_rest s).
Qed.

Lemma strip_from_prev skip prev prev' s :
  strip_from skip prev s = strip_from skip prev' s.
Proof.
  revert skip prev prev'. induction s as [|x s IH]; intros [|n] prev prev';
    cbn [replace_from]; rewrite ?match_here_re_tag; try done.
Qed.

Lemma strip_from_snoc skip prev s w :
  not_gt w = true → skip ≤ length s →
  strip_from skip prev (s ++ [w]) = strip_from skip prev s ++ [w].
Proof.
  intros Hw. revert skip prev.
  induction s as [|x s IH]; intros skip prev Hskip.
  - destruct skip; [|simpl in Hskip; lia].
    cbn [app replace_from]. rewrite !match_here_re_tag. done.
  - destruct skip as [|n].
    + rewrite <- app_comm_cons. cbn [replace_from].
      rewrite !match_here_re_tag, app_comm_cons, tag_rest_snoc by done.
      destruct (tag_rest (x :: s)) as [rest|] eqn:Hr; cbn [fmap option_fmap option_map].
      * apply tag_rest_length in Hr. cbn [length] in Hr.
        rewrite !length_app. cbn [length]. unfold remove. cbn [app].
        repeat match goal with
        | |- context [match ?e with 0 => _ | S _ => _ end] =>
            replace e with (S (length s - length rest)) by lia
        end.
        rewrite IH by lia. done.
      * rewrite IH by (simpl; lia). done.
    + rewrite <- app_comm_cons. cbn [replace_from]. apply IH. simpl in Hskip. lia.
Qed.

Lemma is_space_not_gt c : is_space c = true → not_gt c = true.
Proof.
  unfold not_gt. change (chr ">") with 62%N.
  destruct (N.eqb_spec c 62) as [->|]; [|done]. by vm_compute.
Qed.

Lemma is_space_not_lt c : is_space c = true → (60 =? c)%N = false.
Proof. destruct (N.eqb_spec 60 c) as [<-|]; [|done]. by vm_compute. Qed.

Lemma strip_space_l ws s : all_space ws → strip (ws ++ s) = ws ++ strip s.
Proof.
  unfold replace. induction 1 as [|w ws Hw _ IH]; [done|].
  rewrite <- app_comm_cons. cbn [replace_from]. rewrite match_here_re_tag.
  assert (tag_rest (w :: ws ++ s) = None) as ->.
  { cbn [tag_rest]. destruct (ws ++ s); [done|]. by rewrite (is_space_not_lt _ Hw). }
  cbn [fmap option_fmap option_map]. rewrite <- app_comm_cons. f_equal.
  rewrite (strip_from_prev 0 (Some w) None). exact IH.
Qed.

Lemma strip_space_r s ws : all_space ws → strip (s ++ ws) = strip s ++ ws.
Proof.
  intros H. revert s. induction H as [|w ws Hw _ IH]; intros s.
  - by rewrite !app_nil_r.
  - rewrite (cons_middle w s ws), app_assoc, IH.
    unfold replace. rewrite strip_from_snoc; [|by apply is_space_not_gt|lia].
    by rewrite <- app_assoc.
Qed.

Lemma plainText_trim html : Sanitize.plainText (trim html) = Sanitize.plainText html.
Proof.
  destruct (trim_split html) as [ws1 [ws2 [H1 [H2 Hs]]]].
  unfold Sanitize.plainText. rewrite Hs at 2.
  rewrite strip_space_l, strip_space_r by done.
  by rewrite trim_space_l, trim_space_r.
Qed.


(** ** Lists as arrays *)

Section FindIndex.
Context {A : Type} (p : A → bool).

Lemma findIndex_Some (l : list A) i :
  findIndex p l = Some i →
  ∃ x, l !! i = Some x ∧ p x = true ∧ ∀ k y, k < i → l !! k = Some y → p y = false.
Proof.
  revert i. induction l as [|x l IH]; intros i; simpl; [done|].
  destruct (p x) eqn:Hx.
  - intros [= <-]. exists x. repeat split; [done|]. intros k y Hk. lia.
  - destruct (findIndex p l) as [n|]; [|done]. intros [= <-].
    destruct (IH n eq_refl) as [y [Hy [Hp Hfirst]]].
    exists y. repeat split; [done..|].
    intros [|k] z Hk; simpl; [by intros [= <-]|]. apply Hfirst. lia.
Qed.

Lemma findIndex_None (l : list A) :
  findIndex p l = None ↔ ∀ x, x ∈ l → p x = false.
Proof.
  induction l as [|x l IH]; simpl.
  - split; [|done]. intros _ x Hx. by apply elem_of_nil in Hx.
  - destruct (p x) eqn:Hx.
    + split; [done|]. intros H. rewrite (H x) in Hx; [done|]. by left.
    + destruct (findIndex p l); simpl.
      * split; [done|]. intros H. destruct IH as [_ IH]. 
        discriminate IH. intros y Hy. apply H. by right.
      * split; [|done]. intros _ y [->|Hy]%elem_of_cons; [done|].
        by apply IH.
Qed.

Lemma findIndex_first (l : list A) i x :
  l !! i = Some x → p x = true →
  (∀ k y, k < i → l !! k = Some y → p y = false) →
  findIndex p l = Some i.
Proof.
  revert i. induction l as [|z l IH]; intros [|i]; simpl; try done.
  - intros [= ->] -> _. done.
  - intros Hx Hp Hfirst. rewrite (Hfirst 0 z) by (done || lia).
    rewrite (IH i); [done..|]. intros k y Hk Hy. apply (Hfirst (S k)); [lia|done].
Qed.
End FindIndex.

Section ArrayMove.
Context {A : Type}.
Implicit Types l : list A.

Lemma arrayMove_Some l i j x :
  l !! i = Some x →
  arrayMove l i j = Some (take j (delete i l) ++ x :: drop j (delete i l)).
Proof. unfold arrayMove. by intros ->. Qed.

Lemma lookup_delete_case l i k :
  delete i l !! k = if decide (k < i) then l !! k else l !! S k.
Proof.
  case_decide; [by apply list_lookup_delete_lt|apply list_lookup_delete_ge; lia].
Qed.

Lemma arrayMove_length l i j moved :
  arrayMove l i j = Some moved → length moved = length l.
Proof.
  unfold arrayMove. destruct (l !! i) as [x|] eqn:Hx; [|done]. intros [= <-].
  rewrite length_app. simpl. rewrite length_take, length_drop.
  rewrite length_delete by eauto. apply lookup_lt_Some in Hx. lia.
Qed.

Lemma arrayMove_lookup l i j x moved k :
  l !! i = Some x → j < length l → arrayMove l i j = Some moved →
  moved !! k =
    if decide (k = j) then Some x
    else if decide (k < j) then (if decide (k < i) then l !! k else l !! S k)
    else (if decide (k - 1 < i) then l !! (k - 1) else l !! k).
Proof.
  intros Hx Hj. rewrite (arrayMove_Some _ _ _ _ Hx). intros [= <-].
  assert (length (delete i l) = length l - 1) as Hlen
    by (apply length_delete; eauto).
  assert (length (take j (delete i l)) = j) as Htake
    by (rewrite length_take; lia).
  destruct (decide (k = j)) as [->|Hne].
  - rewrite lookup_app_r by lia. rewrite Htake, Nat.sub_diag. done.
  - destruct (decide (k < j)).
    + rewrite lookup_app_l by lia. rewrite lookup_take_lt by done.
      apply lookup_delete_case.
    + rewrite lookup_app_r by lia. rewrite Htake.
      destruct (k - j) as [|d] eqn:Hd; [lia|]. simpl.
      rewrite lookup_drop, lookup_delete_case.
      replace (j + d) with (k - 1) by lia.
      replace (S (k - 1)) with k by lia. done.
Qed.
End ArrayMove.

(** ** The store *)

Lemma toggle_toggle t : toggle (toggle t) = t.
Proof. destruct t as [? ? c ? ? ?]. unfold toggle; simpl. by rewrite negb_involutive. Qed.

Lemma tasks_dispatch JSON_stringify localStorage a st :
  tasks (dispatch JSON_stringify localStorage a st)
  = contents (tasks st) (updater a (tasks st)).
Proof.
  destruct a; simpl; try done; unfold setTasks; simpl; try done.
  by destruct (reorderTasks _ _ _).
Qed.

Lemma tasks_run JSON_stringify calls st :
  tasks (run JSON_stringify calls st)
  = foldl (λ l c, contents l (updater c.2 l)) (tasks st) calls.
Proof.
  unfold run. revert st. induction calls as [|c calls IH]; intros st; [done|].
  simpl. by rewrite IH, tasks_dispatch.
Qed.

Lemma filter_all {A} (p : A → bool) (l : list A) :
  (∀ x, x ∈ l → p x = true) → List.filter p l = l.
Proof.
  induction l as [|x l IH]; intros H; simpl; [done|].
  rewrite (H x) by (by left). f_equal. apply IH. intros y Hy. apply H. by right.
Qed.

Lemma filter_sublist {A} (p : A → bool) (l : list A) :
  List.filter p l `sublist_of` l.
Proof.
  induction l as [|x l IH]; simpl; [constructor|].
  destruct (p x); by constructor.
Qed.

Lemma filter_elem_of {A} (p : A → bool) (l : list A) x :
  x ∈ List.filter p l ↔ x ∈ l ∧ p x = true.
Proof. rewrite !list_elem_of_In. apply List.filter_In. Qed.

Lemma filter_length_split {A} (p : A → bool) (l : list A) :
  length (List.filter (λ x, negb (p x)) l) + length (List.filter p l) = length l.
Proof.
  induction l as [|x l IH]; simpl; [done|]. destruct (p x); simpl; lia.
Qed.

(** The store's own [addTask] prepends a task whatever the title is. *)
Lemma addTask_has_no_guard input uuid now prev :
  ∃ t, addTask input uuid now prev = New (t :: prev).
Proof. by eexists. Qed.

(** C3, counterexample.  The title of three blanks has an empty plain-text
    view, and [addTask] still creates a task for it, with the empty title:
    the collection, empty before the call, holds one task after it. *)
Lemma addTask_accepts_blank_title :
  Sanitize.plainText (trim (u16 "   ")) = []
  ∧ tasks (dispatch sample_stringify storage_ok
             (Add {| input_title := u16 "   "; input_priority := medium;
                     input_dueDate := None |}
                  (u16 "id-1") (u16 "2026-01-01T00:00:00.000Z"))
             (sample_state [] None)) =
      [ {| id := u16 "id-1"; title := []; completed := false;
           priority := medium; createdAt := u16 "2026-01-01T00:00:00.000Z";
           dueDate := None |} ]
  ∧ tasks (dispatch sample_stringify storage_ok
             (Add {| input_title := u16 "   "; input_priority := medium;
                     input_dueDate := None |}
                  (u16 "id-1") (u16 "2026-01-01T00:00:00.000Z"))
             (sample_state [] None))
    ≠ tasks (sample_state [] None).
Proof. vm_compute. repeat split. discriminate. Qed.

(** C3, as amended.  The store's [addTask] has no emptiness check: for every
    title, also one whose plain-text view is empty, it prepends one task
    with the trimmed title.  The silent no-op is the one of the add form:
    [submit] looks at the plain-text view of the editor content (the same
    with and without trimming) and, when that is empty, returns before it
    calls [addTask], leaving the whole state of the store as it was; when it
    is not empty, [submit] adds one task, with [sanitizeTitle] of the
    editor content as the title it hands to [addTask]. *)
Theorem empty_title_guard_is_in_submit JSON_stringify localStorage uuid now :
  (∀ input st,
      tasks (dispatch JSON_stringify localStorage (Add input uuid now) st) =
        {| id := uuid;
           title := trim (input_title input);
           completed := false;
           priority := input_priority input;
           createdAt := now;
           dueDate := input_dueDate input |} :: tasks st)
  ∧ (∀ html priority dueDate st,
      Sanitize.plainText (trim html) = Sanitize.plainText html
      ∧ (Sanitize.plainText html = [] →
           submit JSON_stringify localStorage uuid now html priority dueDate st = st)
      ∧ (Sanitize.plainText html ≠ [] →
           tasks (submit JSON_stringify localStorage uuid now html priority dueDate st) =
             {| id := uuid;
                title := trim (Sanitize.sanitizeTitle html);
                completed := false;
                priority := priority;
                createdAt := now;
                dueDate := match dueDate with [] => None | _ => Some dueDate end |}
             :: tasks st)).
Proof.
  split; [done|]. intros html priority dueDate st.
  split; [apply plainText_trim|]. unfold submit.
  destruct (Sanitize.plainText html) as [|c text]; split; done.
Qed.

Lemma empty_title_guard_is_in_submit_witness :
  let submit_sample html :=
    submit sample_stringify storage_ok (u16 "id-1") (u16 "2026-01-01T00:00:00.000Z")
      (u16 html) high (u16 "2026-12-31") (sample_state sample_tasks None) in
  submit_sample "  <strong> </strong> "%string = sample_state sample_tasks None
  ∧ tasks (submit_sample "<b>Buy</b> milk"%string) =
      {| id := u16 "id-1"; title := u16 "<strong>Buy</strong> milk";
         completed := false; priority := high;
         createdAt := u16 "2026-01-01T00:00:00.000Z";
         dueDate := Some (u16 "2026-12-31") |} :: sample_tasks.
Proof.
  intros submit_sample. split.
  - apply (empty_title_guard_is_in_submit sample_stringify storage_ok
             (u16 "id-1") (u16 "2026-01-01T00:00:00.000Z")).
    vm_compute. reflexivity.
  - etrans.
    + apply (empty_title_guard_is_in_submit sample_stringify storage_ok
               (u16 "id-1") (u16 "2026-01-01T00:00:00.000Z")).
      vm_compute. discriminate.
    + vm_compute. reflexivity.
Defined.

(** The guard of [submit] reads the plain-text view, the title it hands over
    is the sanitized one, and the two can differ: on the content [<>] the
    first is [<>] and the second is empty. *)
Example submit_guard_and_title_differ :
  gives Sanitize.plainText "<>" "<>"
  ∧ Sanitize.sanitizeTitle (u16 "<>") = [].
Proof. vm_compute. done. Qed.

(** The classification of failures: a [DOMException] with code 22 or one of
    the two quota names is a quota failure, anything else is not. *)
Lemma isQuotaError_spec err :
  isQuotaError err = true ↔
  ∃ code name, err = DOMException code name
    ∧ (code = 22%N ∨ name = u16 "QuotaExceededError"
       ∨ name = u16 "NS_ERROR_DOM_QUOTA_REACHED").
Proof.
  destruct err as [code name|name]; simpl.
  - rewrite !orb_true_iff, N.eqb_eq, !bool_decide_eq_true. split.
    + intros H. exists code, name. split; [done|tauto].
    + intros (? & ? & [= <- <-] & H). tauto.
  - split; [done|]. by intros (? & ? & ? & _).
Qed.

(** C4.  The persistence error follows the last save.  After any call the
    store holds the collection the call computes, the same with every
    storage, failing or not; and whenever the call produces a new collection
    [next], the error signal is [full] when [setItem] throws a quota failure,
    [disabled] when it throws anything else, and [null] when the save
    succeeds (whatever the signal was before). *)
Theorem storage_error_follows_last_save JSON_stringify localStorage a st :
  let st' := dispatch JSON_stringify localStorage a st in
  tasks st' = contents (tasks st) (updater a (tasks st))
  ∧ (∀ localStorage', tasks (dispatch JSON_stringify localStorage' a st) = tasks st')
  ∧ ∀ next, updater a (tasks st) = New next →
      (∀ err, setItem localStorage STORAGE_KEY (JSON_stringify next) = Throw err →
          isQuotaError err = true → storageError st' = Some full)
      ∧ (∀ err, setItem localStorage STORAGE_KEY (JSON_stringify next) = Throw err →
          isQuotaError err = false → storageError st' = Some disabled)
      ∧ (setItem localStorage STORAGE_KEY (JSON_stringify next) = Ok () →
          storageError st' = None).
Proof.
  split; [apply tasks_dispatch|].
  split; [intros localStorage'; by rewrite !tasks_dispatch|].
  intros next Hnext.
  assert (storageError (dispatch JSON_stringify localStorage a st)
          = save_effect JSON_stringify localStorage next) as ->.
  { destruct a; cbn [dispatch updater] in *; try done;
      unfold setTasks; by rewrite Hnext. }
  unfold save_effect. repeat split.
  - by intros err -> ->.
  - by intros err -> ->.
  - by intros ->.
Qed.

Lemma storage_error_follows_last_save_witness :
  let a := Add sample_input (u16 "id-1") (u16 "2026-02-20T00:00:00.000Z") in
  storageError (dispatch sample_stringify storage_full a (sample_state [] None))
    = Some full
  ∧ storageError (dispatch sample_stringify storage_disabled a (sample_state [] None))
    = Some disabled
  ∧ storageError (dispatch sample_stringify storage_ok a (sample_state [] (Some full)))
    = None.
Proof.
  intros a. split; [|split].
  - eapply (storage_error_follows_last_save sample_stringify storage_full a);
      reflexivity.
  - eapply (storage_error_follows_last_save sample_stringify storage_disabled a);
      reflexivity.
  - eapply (storage_error_follows_last_save sample_stringify storage_ok a);
      reflexivity.
Defined.

(** C5.  [loadTasks] never throws: it always returns a collection, and the
    collection is empty when the key is missing and when [JSON.parse] fails
    on the stored value. *)
Theorem loadTasks_never_throws JSON_parse localStorage :
  (∃ loaded, loadTasks JSON_parse localStorage = Ok loaded)
  ∧ (getItem localStorage STORAGE_KEY = Ok None →
      loadTasks JSON_parse localStorage = Ok [])
  ∧ (∀ stored err, getItem localStorage STORAGE_KEY = Ok (Some stored) →
      JSON_parse stored = Throw err →
      loadTasks JSON_parse localStorage = Ok []).
Proof.
  unfold loadTasks. repeat split.
  - destruct (getItem localStorage STORAGE_KEY) as [[[|c s]|]|e]; simpl; eauto.
    destruct (JSON_parse (c :: s)); simpl; eauto.
  - by intros ->.
  - intros stored err -> Herr. simpl. destruct stored; [done|]. by rewrite Herr.
Qed.

Lemma loadTasks_never_throws_witness :
  loadTasks sample_parse storage_ok = Ok []
  ∧ loadTasks sample_parse storage_corrupt = Ok [].
Proof.
  split.
  - apply (loadTasks_never_throws sample_parse storage_ok). reflexivity.
  - apply (loadTasks_never_throws sample_parse storage_corrupt)
      with (stored := u16 "not valid json {{{{") (err := SyntaxError);
      reflexivity.
Defined.

(** A storage that throws on every access loads as the empty collection. *)
Example loadTasks_storage_disabled :
  loadTasks sample_parse storage_disabled = Ok [].
Proof. reflexivity. Qed.

(** C6.  In every state of the store (reachable or not) [stats.total] is the
    length of the whole collection, [stats.active + stats.completed] is
    [stats.total], and setting the status or the priority filter leaves
    [stats] as it was. *)
Theorem stats_cover_whole_collection JSON_stringify localStorage st :
  Stats.total (stats st) = length (tasks st)
  ∧ Stats.active (stats st) + Stats.completed (stats st) = Stats.total (stats st)
  ∧ (∀ f, stats (dispatch JSON_stringify localStorage (SetFilterStatus f) st) = stats st)
  ∧ (∀ f, stats (dispatch JSON_stringify localStorage (SetFilterPriority f) st) = stats st).
Proof.
  repeat split. apply (filter_length_split completed).
Qed.

(** The end-to-end scenario of the specification: add A (low), add B (high);
    the collection is [B; A], the priority filter [high] shows [B] alone and
    the statistics still count both. *)
Example add_add_filter_scenario :
  let a := Add {| input_title := u16 "A"; input_priority := low; input_dueDate := None |}
             (u16 "id-1") (u16 "t1") in
  let b := Add {| input_title := u16 "B"; input_priority := high; input_dueDate := None |}
             (u16 "id-2") (u16 "t2") in
  let st := run sample_stringify
              [(storage_ok, a); (storage_ok, b);
               (storage_ok, SetFilterPriority (PriorityFilter.only high))]
              (sample_state [] None) in
  map title (tasks st) = [u16 "B"; u16 "A"]
  ∧ map title (filteredTasks st) = [u16 "B"]
  ∧ stats st = {| Stats.total := 2; Stats.active := 2; Stats.completed := 0 |}.
Proof. vm_compute. repeat split. Qed.

Lemma has_id_absent i (l : list Task) :
  i ∉ id <$> l → findIndex (has_id i) l = None.
Proof.
  intros Hi. apply findIndex_None. intros t Ht.
  apply bool_decide_eq_false. intros <-. apply Hi. by apply list_elem_of_fmap_2.
Qed.

Lemma arrayMove_same {A} (l : list A) i x :
  l !! i = Some x → arrayMove l i i = Some l.
Proof.
  intros Hx. rewrite (arrayMove_Some _ _ _ _ Hx). f_equal.
  rewrite delete_take_drop.
  assert (length (take i l) = i) as Hlen.
  { rewrite length_take. apply lookup_lt_Some in Hx. lia. }
  rewrite take_app_length' by done. rewrite drop_app_length' by done.
  by apply take_drop_middle.
Qed.

(** C7.  [reorderTasks activeId overId] leaves the collection as it is when
    either id is absent and when the two ids are the same.  Otherwise, with
    [oldIndex] and [newIndex] the positions [findIndex] gives for the two ids,
    it removes the task at [oldIndex] and reinserts it at [newIndex]: the
    moved task ends at [newIndex], the tasks between the two positions shift
    by one towards [oldIndex], every other task stays where it was, and the
    length is unchanged. *)
Theorem reorderTasks_moves_by_remove_and_reinsert activeId overId prev :
  (activeId ∉ id <$> prev ∨ overId ∉ id <$> prev →
     reorderTasks activeId overId prev = Same)
  ∧ contents prev (reorderTasks activeId activeId prev) = prev
  ∧ ∀ oldIndex newIndex,
      findIndex (has_id activeId) prev = Some oldIndex →
      findIndex (has_id overId) prev = Some newIndex →
      ∃ moving moved,
        prev !! oldIndex = Some moving ∧ id moving = activeId
        ∧ reorderTasks activeId overId prev = New moved
        ∧ moved = take newIndex (delete oldIndex prev) ++
                  moving :: drop newIndex (delete oldIndex prev)
        ∧ length moved = length prev
        ∧ moved !! newIndex = Some moving
        ∧ (∀ k, oldIndex ≤ k < newIndex → moved !! k = prev !! S k)
        ∧ (∀ k, newIndex < k ≤ oldIndex → moved !! k = prev !! (k - 1))
        ∧ (∀ k, k < oldIndex ∧ k < newIndex ∨ oldIndex < k ∧ newIndex < k →
             moved !! k = prev !! k).
Proof.
  split; [|split].
  - unfold reorderTasks. intros [H|H]; rewrite (has_id_absent _ _ H); [done|].
    by destruct (findIndex _ prev).
  - unfold reorderTasks.
    destruct (findIndex (has_id activeId) prev) as [i|] eqn:Hi; [|done].
    destruct (findIndex_Some _ _ _ Hi) as [x [Hx _]].
    by rewrite (arrayMove_same _ _ _ Hx).
  - intros i j Hi Hj.
    destruct (findIndex_Some _ _ _ Hi) as [x [Hx [Hidx _]]].
    destruct (findIndex_Some _ _ _ Hj) as [y [Hy _]].
    apply bool_decide_eq_true in Hidx. apply lookup_lt_Some in Hy.
    pose proof (arrayMove_Some prev i j x Hx) as Hmove.
    pose proof (λ k, arrayMove_lookup prev i j x _ k Hx Hy Hmove) as Hlook.
    exists x, (take j (delete i prev) ++ x :: drop j (delete i prev)).
    unfold reorderTasks. rewrite Hi, Hj, Hmove.
    repeat split; try done.
    + by apply (arrayMove_length prev i j).
    + rewrite Hlook. by rewrite decide_True.
    + intros k Hk. rewrite Hlook.
      rewrite decide_False, decide_True, decide_False by lia. done.
    + intros k Hk. rewrite Hlook.
      rewrite decide_False, decide_False, decide_True by lia. done.
    + intros k Hk. rewrite Hlook. rewrite decide_False by lia.
      destruct Hk as [Hk|Hk].
      * rewrite decide_True, decide_True by lia. done.
      * rewrite decide_False, decide_False by lia. done.
Qed.

Lemma reorderTasks_moves_by_remove_and_reinsert_witness :
  reorderTasks (u16 "ghost") (u16 "a") sample_tasks = Same
  ∧ reorderTasks (u16 "c") (u16 "a") sample_tasks
    = New [sample_task "b" true; sample_task "a" false; sample_task "c" false].
Proof.
  split.
  - apply (reorderTasks_moves_by_remove_and_reinsert
             (u16 "ghost") (u16 "a") sample_tasks).
    left. by_evaluation.
  - destruct (proj2 (proj2 (reorderTasks_moves_by_remove_and_reinsert
                              (u16 "c") (u16 "a") sample_tasks))
                0 2 ltac:(vm_compute; reflexivity) ltac:(vm_compute; reflexivity))
      as (moving & moved & Hmoving & _ & -> & -> & _).
    injection Hmoving as <-. reflexivity.
Defined.

Lemma lookup_map {A B} (f : A → B) (l : list A) k :
  map f l !! k = f <$> l !! k.
Proof. revert k. induction l as [|x l IH]; intros [|k]; simpl; auto. Qed.

(** C8.  [toggleTask i] applied twice gives back the collection it started
    from, so the [completed] flag of the matching task returns to its value;
    one application negates the flag of a task with id [i] and keeps its
    other fields; a task with another id keeps its record after the first and
    after the second application; and when no task has id [i] the collection
    is unchanged. *)
Theorem toggleTask_twice_restores i prev :
  contents prev (toggleTask i (contents prev (toggleTask i prev))) = prev
  ∧ (∀ k t, prev !! k = Some t → id t = i →
       contents prev (toggleTask i prev) !! k
         = Some {| id := id t; title := title t; completed := negb (completed t);
                   priority := priority t; createdAt := createdAt t;
                   dueDate := dueDate t |})
  ∧ (∀ k t, prev !! k = Some t → id t ≠ i →
       contents prev (toggleTask i prev) !! k = Some t
       ∧ contents prev (toggleTask i (contents prev (toggleTask i prev))) !! k = Some t)
  ∧ (i ∉ id <$> prev → contents prev (toggleTask i prev) = prev).
Proof.
  unfold toggleTask; cbn [contents].
  split; [|split; [|split]].
  - rewrite map_map. rewrite <- (map_id prev) at 2. apply map_ext. intros t.
    destruct (bool_decide (id t = i)) eqn:Ht; simpl; rewrite Ht; [|done].
    apply toggle_toggle.
  - intros k t Hk Hi. rewrite lookup_map, Hk. simpl.
    by rewrite bool_decide_eq_true_2.
  - intros k t Hk Hi. rewrite !lookup_map, Hk. simpl.
    by rewrite !(bool_decide_eq_false_2 (id t = i)) by done.
  - intros Hi. rewrite <- (map_id prev) at 2. apply map_ext_in. intros t Ht.
    rewrite bool_decide_eq_false_2; [done|]. intros <-. apply Hi.
    apply list_elem_of_fmap_2. by apply list_elem_of_In.
Qed.

Lemma toggleTask_twice_restores_witness :
  let once := contents sample_tasks (toggleTask (u16 "b") sample_tasks) in
  once !! 1 = Some (sample_task "b" false)
  ∧ once !! 0 = Some (sample_task "c" false)
  ∧ contents once (toggleTask (u16 "b") once) = sample_tasks
  ∧ contents sample_tasks (toggleTask (u16 "ghost") sample_tasks) = sample_tasks.
Proof.
  intros once. pose proof (toggleTask_twice_restores (u16 "b") sample_tasks)
    as (Htwice & Hflip & Hother & _).
  split; [|split; [|split]].
  - apply (Hflip 1 (sample_task "b" true)); reflexivity.
  - apply (Hother 0 (sample_task "c" false)); [reflexivity|].
    by_evaluation.
  - apply (toggleTask_twice_restores (u16 "b") sample_tasks).
  - apply (toggleTask_twice_restores (u16 "ghost") sample_tasks).
    by_evaluation.
Defined.

(** C9.  [clearCompleted] keeps exactly the tasks that are not completed: a
    task is in the result iff it is in the collection and not completed, the
    result is a subsequence of the collection (relative order preserved),
    the number of tasks dropped is the number of completed ones, and when no
    task is completed the collection is unchanged. *)
Theorem clearCompleted_removes_exactly_completed prev :
  let kept := contents prev (clearCompleted prev) in
  (∀ t, t ∈ kept ↔ t ∈ prev ∧ completed t = false)
  ∧ kept `sublist_of` prev
  ∧ length kept + length (List.filter completed prev) = length prev
  ∧ ((∀ t, t ∈ prev → completed t = false) → kept = prev).
Proof.
  cbn [contents clearCompleted]. split; [|split; [|split]].
  - intros t. rewrite filter_elem_of. by rewrite negb_true_iff.
  - apply filter_sublist.
  - apply (filter_length_split completed).
  - intros H. apply filter_all. intros t Ht. by rewrite (H t Ht).
Qed.

Lemma clearCompleted_removes_exactly_completed_witness :
  let prev := [sample_task "c" false; sample_task "a" false] in
  contents prev (clearCompleted prev) = prev.
Proof.
  intros prev.
  apply (clearCompleted_removes_exactly_completed prev).
  intros t Ht. apply list_elem_of_In in Ht.
  destruct Ht as [<-|[<-|[]]]; reflexivity.
Defined.

Example clearCompleted_sample :
  contents sample_tasks (clearCompleted sample_tasks)
  = [sample_task "c" false; sample_task "a" false].
Proof. reflexivity. Qed.

Lemma run_app JSON_stringify calls1 calls2 st :
  run JSON_stringify (calls1 ++ calls2) st
  = run JSON_stringify calls2 (run JSON_stringify calls1 st).
Proof. unfold run. apply foldl_app. Qed.

Lemma tasks_run_adds JSON_stringify (calls : list add_call) st :
  tasks (run JSON_stringify (add_action <$> calls) st)
  = rev (added <$> calls) ++ tasks st.
Proof.
  revert st. induction calls as [|c calls IH]; intros st; [done|].
  rewrite !fmap_cons. change (run JSON_stringify (add_action c :: ?l) st)
    with (run JSON_stringify l (dispatch JSON_stringify (add_action c).1 (add_action c).2 st)).
  rewrite IH. destruct c as [[[ls input] uuid] now]. simpl.
  by rewrite <- app_assoc.
Qed.

(** C10, counterexample.  Two [addTask] calls during which
    [crypto.randomUUID()] returns the same value leave two tasks with the
    same id: the id of the second task is not fresh. *)
Lemma addTask_repeats_repeated_uuid :
  id <$> tasks (run sample_stringify
                  [(storage_ok, Add sample_input (u16 "id-1") (u16 "2026-02-20T00:00:00.000Z"));
                   (storage_ok, Add sample_input (u16 "id-1") (u16 "2026-02-21T00:00:00.000Z"))]
                  (sample_state [] None))
    = [u16 "id-1"; u16 "id-1"]
  ∧ ¬ NoDup (id <$> tasks (run sample_stringify
                  [(storage_ok, Add sample_input (u16 "id-1") (u16 "2026-02-20T00:00:00.000Z"));
                   (storage_ok, Add sample_input (u16 "id-1") (u16 "2026-02-21T00:00:00.000Z"))]
                  (sample_state [] None))).
Proof.
  split; [reflexivity|]. vm_compute. intros Hnodup.
  apply NoDup_cons in Hnodup as [Hnotin _]. apply Hnotin. by left.
Qed.

(** C10, as amended.  After any sequence of [addTask] calls, one more call
    puts its task at index 0: the new collection is the new task followed by
    the previous collection, record for record and in the same order.  The
    new task has [completed = false], the trimmed title, the given priority
    and optional [dueDate], the time of the call, and as its id the value
    that [crypto.randomUUID()] returned, which [addTask] does not compare
    with the ids in the collection: the ids after the call are pairwise
    distinct exactly when they were before it and the returned value was not
    among them. *)
Theorem addTask_newest_first JSON_stringify (earlier : list add_call)
    localStorage input uuid now st :
  let before := run JSON_stringify (add_action <$> earlier) st in
  let after := dispatch JSON_stringify localStorage (Add input uuid now) before in
  tasks after =
    {| id := uuid;
       title := trim (input_title input);
       completed := false;
       priority := input_priority input;
       createdAt := now;
       dueDate := input_dueDate input |} :: tasks before
  ∧ tasks before = rev (added <$> earlier) ++ tasks st
  ∧ (NoDup (id <$> tasks after) ↔
       (uuid ∉ id <$> tasks before) ∧ NoDup (id <$> tasks before)).
Proof.
  cbn zeta. split; [done|]. split; [apply tasks_run_adds|].
  cbn [dispatch setTasks updater addTask tasks contents].
  rewrite fmap_cons. apply NoDup_cons.
Qed.

Lemma addTask_newest_first_witness :
  let earlier := [(storage_ok, sample_input, u16 "id-1", u16 "2026-02-20T00:00:00.000Z")] in
  let before := run sample_stringify (add_action <$> earlier) (sample_state [] None) in
  let after :=
    dispatch sample_stringify storage_full
      (Add sample_input (u16 "id-2") (u16 "2026-02-21T00:00:00.000Z")) before in
  map id (tasks after) = [u16 "id-2"; u16 "id-1"]
  ∧ map title (tasks after) = [u16 "Buy groceries"; u16 "Buy groceries"]
  ∧ NoDup (id <$> tasks after).
Proof.
  intros earlier before after. split; [reflexivity|]. split; [reflexivity|].
  apply (addTask_newest_first sample_stringify earlier storage_full sample_input
           (u16 "id-2") (u16 "2026-02-21T00:00:00.000Z") (sample_state [] None)).
  split; by_evaluation.
Defined.

(** ** The sanitizer on concrete inputs *)

Example sanitize_bold_with_style :
  Sanitize.sanitizeTitle (u16 "<b style='x'>hi</b>") = u16 "<strong>hi</strong>".
Proof. vm_compute. reflexivity. Qed.

Example sanitize_div_wrapper :
  Sanitize.sanitizeTitle (u16 "<div><em>x</em></div>") = u16 "<em>x</em>".
Proof. vm_compute. reflexivity. Qed.

Example sanitize_part_000_attributes :
  SanitizePart000.sanitizeTitle (u16 " <STRONG class=a>y</strong> <u data-x='y'>t</u>")
  = u16 "<STRONG>y</strong> <u>t</u>".
Proof. vm_compute. reflexivity. Qed.

(** The cases of the repository's test file ([sanitize.test.ts]), with
    single quotes around attribute values: the variant of [unnamed/part_000]
    gives the expected result on each of them. *)
Example sanitize_tests_part_000 :
  gives SanitizePart000.sanitizeTitle "Buy groceries" "Buy groceries"
  ∧ gives SanitizePart000.sanitizeTitle "  hello  " "hello"
  ∧ gives SanitizePart000.sanitizeTitle "<strong>bold</strong> and <em>italic</em>" "<strong>bold</strong> and <em>italic</em>"
  ∧ gives SanitizePart000.sanitizeTitle "<b>bold</b>" "<strong>bold</strong>"
  ∧ gives SanitizePart000.sanitizeTitle "<i class='foo'>text</i>" "<em>text</em>"
  ∧ gives SanitizePart000.sanitizeTitle "<strong onclick='evil()'>text</strong>" "<strong>text</strong>"
  ∧ gives SanitizePart000.sanitizeTitle "<em class='foo' style='color:red'>text</em>" "<em>text</em>"
  ∧ gives SanitizePart000.sanitizeTitle "<u data-x='y'>text</u>" "<u>text</u>"
  ∧ gives SanitizePart000.sanitizeTitle "<script>alert('xss')</script>text" "text"
  ∧ gives SanitizePart000.sanitizeTitle "text<img src='x' onerror='evil()'>more" "textmore"
  ∧ gives SanitizePart000.sanitizeTitle "<a href='https://evil.com'>click me</a>" "click me"
  ∧ gives SanitizePart000.sanitizeTitle "<div>wrapped text</div>" "wrapped text".
Proof. vm_compute. repeat split. Qed.

Example plainText_tests :
  gives Sanitize.plainText "hello world" "hello world"
  ∧ gives Sanitize.plainText "<strong>bold</strong> and <em>italic</em>" "bold and italic"
  ∧ gives Sanitize.plainText "<div><strong>nested</strong></div>" "nested"
  ∧ gives Sanitize.plainText "  hello  " "hello".
Proof. vm_compute. repeat split. Qed.

Example plainText_tags_only : Sanitize.plainText (u16 "<strong></strong>") = [].
Proof. vm_compute. reflexivity. Qed.

Example only_bare_tags_ok :
  only_bare_tags (u16 "a <strong>b</strong> < c <em>d</em>") = true.
Proof. vm_compute. reflexivity. Qed.

(** C1.  The claim is that every tag of the output of [sanitizeTitle] is one
    of the six bare allowed tags.  It fails: an allowed tag name followed by
    [/] instead of a blank passes the look-ahead (there is a word boundary
    after the name) and escapes the attribute rule (which asks for a blank),
    so the tag survives with its [onclick] attribute, in both versions of the
    function; so does a tag whose name only starts with an allowed name, such
    as [u-x]; and the version of [src/utils/sanitize.ts], which has no
    attribute rule at all, also keeps a blank-separated attribute. *)
Theorem sanitizeTitle_keeps_attribute :
  Sanitize.sanitizeTitle (u16 "<strong/onclick=evil()>x</strong>")
    = u16 "<strong/onclick=evil()>x</strong>"
  ∧ SanitizePart000.sanitizeTitle (u16 "<strong/onclick=evil()>x</strong>")
    = u16 "<strong/onclick=evil()>x</strong>"
  ∧ only_bare_tags (u16 "<strong/onclick=evil()>x</strong>") = false
  ∧ SanitizePart000.sanitizeTitle (u16 "<u-x onclick=evil()>x</u-x>")
    = u16 "<u-x onclick=evil()>x</u-x>"
  ∧ only_bare_tags (u16 "<u-x onclick=evil()>x</u-x>") = false
  ∧ Sanitize.sanitizeTitle (u16 "<strong onclick=evil()>text</strong>")
    = u16 "<strong onclick=evil()>text</strong>"
  ∧ only_bare_tags (u16 "<strong onclick=evil()>text</strong>") = false.
Proof. repeat split; vm_compute; reflexivity. Qed.

(** C2.  On ['<script>alert(1)</script>text'] the function of
    [src/utils/sanitize.ts] drops the two tags and keeps the payload: it
    returns ['alert(1)text'], not ['text'].  The version in
    [unnamed/part_000], whose first rule removes the whole element, returns
    ['text']. *)
Theorem sanitizeTitle_script_payload :
  Sanitize.sanitizeTitle (u16 "<script>alert(1)</script>text") = u16 "alert(1)text"
  ∧ SanitizePart000.sanitizeTitle (u16 "<script>alert(1)</script>text") = u16 "text".
Proof. split; vm_compute; reflexivity. Qed.

(** * Further properties of the code *)

(** ** More on the plain-text view *)

Lemma tag_rest_suffix s rest :
  tag_rest s = Some rest → ∃ pre, s = pre ++ rest ∧ 0 < length pre.
Proof.
  destruct s as [|x [|y s2]]; simpl; try done.
  destruct (_ && _); [|done].
  destruct (dropWhile_split not_gt s2) as [ws [_ Hs]].
  destruct (dropWhile not_gt s2) as [|g r]; [done|].
  intros [= <-]. exists (x :: y :: ws ++ [g]). split; [|simpl; lia].
  simpl. rewrite <- app_assoc. simpl. by rewrite <- Hs.
Qed.

Lemma strip_from_skip n prev prev' s :
  n ≤ length s → strip_from n prev s = strip_from 0 prev' (drop n s).
Proof.
  revert n prev. induction s as [|x s IH]; intros [|n] prev Hn; simpl in Hn.
  - done.
  - lia.
  - apply strip_from_prev.
  - cbn [replace_from drop]. apply IH. lia.
Qed.

(** The scan, one step at a time: a tag at the head is dropped, any other
    character is kept. *)
Lemma strip_step prev s :
  strip_from 0 prev s =
  match tag_rest s with
  | Some rest => strip_from 0 prev rest
  | None =>
      match s with
      | [] => []
      | x :: s' => x :: strip_from 0 prev s'
      end
  end.
Proof.
  destruct s as [|x s']; [done|].
  cbn [replace_from]. rewrite match_here_re_tag.
  destruct (tag_rest (x :: s')) as [rest|] eqn:Hr; cbn [fmap option_fmap option_map].
  - destruct (tag_rest_suffix _ _ Hr) as [pre [Hs Hpre]].
    destruct pre as [|x' pre]; [simpl in Hpre; lia|].
    simpl in Hs. injection Hs as <- ->.
    cbn [length]. rewrite length_app.
    replace (S (length pre + length rest) - length rest) with (S (length pre)) by lia.
    unfold remove. cbn [app].
    rewrite (strip_from_skip _ _ prev) by (rewrite length_app; lia).
    by rewrite drop_app_length.
  - f_equal. apply strip_from_prev.
Qed.

Lemma tag_free_drop s k : tag_free s → tag_free (drop k s).
Proof.
  revert k. induction s as [|x s IH]; intros [|k] H; try done.
  simpl. apply IH. by destruct H.
Qed.

Lemma tag_free_head s : tag_free s → tag_rest s = None.
Proof. destruct s; [done|]. by intros [? _]. Qed.

Lemma strip_tag_free prev s : tag_free s → strip_from 0 prev s = s.
Proof.
  induction s as [|x s IH]; [done|]. intros [Hx Hs].
  rewrite strip_step, Hx. f_equal. by apply IH.
Qed.

Lemma strip_sublist prev s : strip_from 0 prev s `sublist_of` s.
Proof.
  remember (length s) as n eqn:Hn. revert s Hn.
  induction n as [n IH] using lt_wf_ind. intros s ->.
  rewrite strip_step. destruct (tag_rest s) as [rest|] eqn:Hr.
  - destruct (tag_rest_suffix _ _ Hr) as [pre [-> Hpre]].
    apply sublist_inserts_l. apply (IH (length rest)); [|done].
    rewrite length_app. lia.
  - destruct s as [|x s]; [done|]. apply sublist_skip.
    apply (IH (length s)); [simpl; lia|done].
Qed.

Lemma dropWhile_nil_Forall {A} (p : A → bool) (l : list A) :
  dropWhile p l = [] ↔ Forall (λ x, p x = true) l.
Proof.
  split; [|apply dropWhile_all_nil].
  induction l as [|x l IH]; simpl; [done|].
  destruct (p x) eqn:Hx; [|done]. intros H. constructor; auto.
Qed.

Lemma sublist_Forall {A} (P : A → Prop) (l1 l2 : list A) :
  l1 `sublist_of` l2 → Forall P l2 → Forall P l1.
Proof.
  induction 1 as [|x l1 l2 _ IH|x l1 l2 _ IH]; [done|..];
    intros [Hx Hl]%Forall_cons; auto.
Qed.

Lemma tag_rest_None_cons x s s' :
  tag_rest (x :: s) = None → s' `sublist_of` s →
  (∀ y r, s = y :: r → not_gt y = false → ∃ r', s' = y :: r') →
  tag_rest (x :: s') = None.
Proof.
  intros Hx Hsub Hhead. destruct s' as [|y' r']; [done|].
  cbn [tag_rest] in *.
  destruct (60 =? x)%N; [|done]. cbn [andb] in *.
  destruct s as [|y r]; [by apply sublist_nil_r in Hsub|].
  destruct (not_gt y) eqn:Hy.
  - (* no [>] in [s] at all *)
    assert (Forall (λ c, not_gt c = true) (y :: r)) as Hall.
    { constructor; [done|]. apply dropWhile_nil_Forall.
      by destruct (dropWhile not_gt r). }
    pose proof (sublist_Forall _ _ _ Hsub Hall) as Hall'.
    apply Forall_cons in Hall' as [-> Hr'].
    by rewrite (dropWhile_all_nil _ _ Hr').
  - destruct (Hhead y r eq_refl Hy) as [r'' [= -> _]]. by rewrite Hy.
Qed.

Lemma strip_head_gt prev y r :
  not_gt y = false → strip_from 0 prev (y :: r) = y :: strip_from 0 prev r.
Proof.
  intros Hy. rewrite strip_step.
  assert (tag_rest (y :: r) = None) as ->; [|done].
  cbn [tag_rest]. destruct r; [done|].
  destruct (N.eqb_spec 60 y) as [<-|]; [by vm_compute in Hy|done].
Qed.

Lemma strip_is_tag_free prev s : tag_free (strip_from 0 prev s).
Proof.
  remember (length s) as n eqn:Hn. revert s Hn.
  induction n as [n IH] using lt_wf_ind. intros s ->.
  rewrite strip_step. destruct (tag_rest s) as [rest|] eqn:Hr.
  - apply tag_rest_length in Hr. by apply (IH (length rest)).
  - destruct s as [|x s]; [done|]. split.
    + apply (tag_rest_None_cons x s); [done|apply strip_sublist|].
      intros y r -> Hy. rewrite strip_head_gt by done. eauto.
    + apply (IH (length s)); [simpl; lia|done].
Qed.

(** ** More on [trim] *)

Lemma dropWhile_head {A} (p : A → bool) (l : list A) :
  match dropWhile p l with
  | [] => True
  | x :: _ => p x = false
  end.
Proof.
  induction l as [|x l IH]; simpl; [done|]. by destruct (p x) eqn:Hx; [|rewrite Hx].
Qed.

Lemma dropWhile_fixed {A} (p : A → bool) (l : list A) :
  match l with [] => True | x :: _ => p x = false end → dropWhile p l = l.
Proof. destruct l as [|x l]; simpl; [done|]. by intros ->. Qed.

Lemma dropWhile_sublist {A} (p : A → bool) (l : list A) :
  dropWhile p l `sublist_of` l.
Proof.
  destruct (dropWhile_split p l) as [ws [_ Hl]]. rewrite Hl at 2.
  by apply sublist_inserts_l.
Qed.

Lemma rev_sublist {A} (l1 l2 : list A) :
  l1 `sublist_of` l2 → rev l1 `sublist_of` rev l2.
Proof.
  induction 1 as [|x l1 l2 _ IH|x l1 l2 _ IH]; simpl; [done|..].
  - by apply sublist_app.
  - by apply sublist_inserts_r.
Qed.

Lemma trim_sublist s : trim s `sublist_of` s.
Proof.
  unfold trim. rewrite <- (rev_involutive s) at 2. apply rev_sublist.
  etrans; [apply dropWhile_sublist|]. apply rev_sublist, dropWhile_sublist.
Qed.

(** The first and the last character of a trimmed string are not blank. *)
Lemma trim_ends s :
  match trim s with [] => True | c :: _ => is_space c = false end
  ∧ match rev (trim s) with [] => True | c :: _ => is_space c = false end.
Proof.
  unfold trim. rewrite rev_involutive.
  pose proof (dropWhile_head is_space (rev (dropWhile is_space s))) as Hlast.
  split; [|done].
  destruct (dropWhile_split is_space (rev (dropWhile is_space s))) as [ws [_ Hr]].
  destruct (dropWhile is_space (rev (dropWhile is_space s))) as [|c u] eqn:Hu;
    [done|].
  pose proof (dropWhile_head is_space s) as Hfirst.
  apply (f_equal (@rev N)) in Hr. rewrite rev_involutive, rev_app_distr in Hr.
  rewrite Hr in Hfirst. destruct (rev (c :: u)) as [|d v] eqn:Hd; [|done].
  apply (f_equal length) in Hd. rewrite length_rev in Hd. done.
Qed.

Lemma trim_idempotent s : trim (trim s) = trim s.
Proof.
  destruct (trim_ends s) as [Hfirst Hlast].
  unfold trim at 1. rewrite (dropWhile_fixed _ _ Hfirst).
  rewrite (dropWhile_fixed _ _ Hlast). apply rev_involutive.
Qed.

Lemma tag_free_snoc s w : not_gt w = true → tag_free (s ++ [w]) → tag_free s.
Proof.
  intros Hw. induction s as [|x s IH]; [done|].
  intros [Hx Hs]. split; [|by apply IH].
  change (tag_rest ((x :: s) ++ [w]) = None) in Hx.
  rewrite (tag_rest_snoc (x :: s) w Hw) in Hx.
  by destruct (tag_rest (x :: s)).
Qed.

Lemma tag_free_app_space s ws : all_space ws → tag_free (s ++ ws) → tag_free s.
Proof.
  induction ws as [|w ws IH] using rev_ind; intros Hws.
  - by rewrite app_nil_r.
  - unfold all_space in *.
    destruct (proj1 (Forall_app _ _ _) Hws) as [Hws' Hw].
    apply (proj1 (Forall_singleton _ _)) in Hw.
    rewrite app_assoc. intros H. apply IH; [done|].
    apply (tag_free_snoc _ w); [by apply is_space_not_gt|done].
Qed.

Lemma tag_free_trim s : tag_free s → tag_free (trim s).
Proof.
  destruct (trim_split s) as [ws1 [ws2 [H1 [H2 Hs]]]]. intros H.
  rewrite Hs in H. apply (tag_free_drop _ (length ws1)) in H.
  rewrite drop_app_length in H. by apply (tag_free_app_space _ ws2).
Qed.

(** X1.  [plainText] removes every tag in one go: its pattern matches at no
    position of its result, and applying it again changes nothing. *)
Theorem plainText_leaves_no_tag html :
  Sanitize.plainText (Sanitize.plainText html) = Sanitize.plainText html
  ∧ ∀ k prev,
      match_here false Sanitize.re_tag prev (drop k (Sanitize.plainText html)) = None.
Proof.
  assert (tag_free (Sanitize.plainText html)) as Hfree
    by apply tag_free_trim, strip_is_tag_free.
  split.
  - unfold Sanitize.plainText at 1, replace.
    rewrite (strip_tag_free _ _ Hfree). unfold Sanitize.plainText.
    apply trim_idempotent.
  - intros k prev. rewrite match_here_re_tag.
    by rewrite (tag_free_head _ (tag_free_drop _ k Hfree)).
Qed.

(** X2.  [plainText] only deletes characters: its result is a subsequence of
    its argument, so it is never longer. *)
Theorem plainText_is_subsequence html :
  Sanitize.plainText html `sublist_of` html
  ∧ length (Sanitize.plainText html) ≤ length html.
Proof.
  assert (Sanitize.plainText html `sublist_of` html) as H.
  { unfold Sanitize.plainText. etrans; [apply trim_sublist|apply strip_sublist]. }
  split; [done|by apply sublist_length].
Qed.

(** X3.  Blanks before and after the markup do not change the plain-text
    view. *)
Theorem plainText_ignores_outer_blanks ws1 html ws2 :
  all_space ws1 → all_space ws2 →
  Sanitize.plainText (ws1 ++ html ++ ws2) = Sanitize.plainText html.
Proof.
  intros H1 H2. unfold Sanitize.plainText.
  rewrite strip_space_l, strip_space_r by done.
  by rewrite trim_space_l, trim_space_r.
Qed.

Lemma plainText_ignores_outer_blanks_witness :
  Sanitize.plainText (u16 "  " ++ u16 "<b>x</b>" ++ u16 " ")
  = Sanitize.plainText (u16 "<b>x</b>").
Proof.
  apply plainText_ignores_outer_blanks; unfold all_space; by_evaluation.
Defined.

(** ** Text without markup *)

Lemma chr_eq_lt ci x : x ≠ chr "<" → chr_eq ci (chr "<") x = false.
Proof.
  change (chr "<") with 60%N. intros Hx. unfold chr_eq, canonicalize.
  destruct ci; [|by apply N.eqb_neq].
  change ((97 <=? 60)%N && (60 <=? 122)%N) with false. cbn match.
  destruct ((97 <=? x)%N && (x <=? 122)%N) eqn:Hrange; apply N.eqb_neq; [|done].
  apply andb_true_iff in Hrange as [H1%N.leb_le H2%N.leb_le]. lia.
Qed.

Lemma match_here_needs_lt ci r prev s :
  opens_with_lt r →
  match s with [] => True | x :: _ => x ≠ chr "<" end →
  match_here ci r prev s = None.
Proof.
  intros (r1 & r2 & ->) Hs. unfold match_here. cbn [exec].
  destruct s as [|x s]; [done|]. by rewrite chr_eq_lt.
Qed.

Lemma replace_without_lt ci r repl s :
  opens_with_lt r → chr "<" ∉ s → replace ci r repl s = s.
Proof.
  intros Hr. unfold replace. generalize (@None N) as prev.
  induction s as [|x s IH]; intros prev Hs.
  - cbn [replace_from]. by rewrite match_here_needs_lt.
  - apply not_elem_of_cons in Hs as [Hx Hs].
    cbn [replace_from]. rewrite match_here_needs_lt by done.
    f_equal. by apply IH.
Qed.

Lemma opens_with_lt_seq_txt (c : Ascii.ascii) (name : String.string) rs :
  Ascii.N_of_ascii c = chr "<" →
  opens_with_lt (seq (txt (String.String c name) :: rs)).
Proof. intros Hc. unfold opens_with_lt, seq, txt. simpl. rewrite Hc. eauto. Qed.

Lemma opens_with_lt_re_open name : opens_with_lt (Sanitize.re_open name).
Proof. by apply opens_with_lt_seq_txt. Qed.
Lemma opens_with_lt_re_close name : opens_with_lt (Sanitize.re_close name).
Proof. by apply opens_with_lt_seq_txt. Qed.
Lemma opens_with_lt_re_disallowed : opens_with_lt Sanitize.re_disallowed.
Proof. by apply opens_with_lt_seq_txt. Qed.
Lemma opens_with_lt_re_tag : opens_with_lt Sanitize.re_tag.
Proof. by apply opens_with_lt_seq_txt. Qed.
Lemma opens_with_lt_re_script : opens_with_lt SanitizePart000.re_script.
Proof. by apply opens_with_lt_seq_txt. Qed.
Lemma opens_with_lt_re_attrs : opens_with_lt SanitizePart000.re_attrs.
Proof. by apply opens_with_lt_seq_txt. Qed.

(** X4.  On a string without [<], [sanitizeTitle] (either version) and
    [plainText] do nothing but trim. *)
Theorem text_without_markup_is_only_trimmed s :
  chr "<" ∉ s →
  Sanitize.sanitizeTitle s = trim s
  ∧ SanitizePart000.sanitizeTitle s = trim s
  ∧ Sanitize.plainText s = trim s.
Proof.
  intros Hs. unfold Sanitize.sanitizeTitle, SanitizePart000.sanitizeTitle,
    Sanitize.plainText.
  rewrite (replace_without_lt _ SanitizePart000.re_script) by
    (done || apply opens_with_lt_re_script).
  rewrite !(replace_without_lt _ (Sanitize.re_open "b")) by
    (done || apply opens_with_lt_re_open).
  rewrite !(replace_without_lt _ (Sanitize.re_close "b")) by
    (done || apply opens_with_lt_re_close).
  rewrite !(replace_without_lt _ (Sanitize.re_open "i")) by
    (done || apply opens_with_lt_re_open).
  rewrite !(replace_without_lt _ (Sanitize.re_close "i")) by
    (done || apply opens_with_lt_re_close).
  rewrite !(replace_without_lt _ Sanitize.re_disallowed) by
    (done || apply opens_with_lt_re_disallowed).
  rewrite (replace_without_lt _ SanitizePart000.re_attrs) by
    (done || apply opens_with_lt_re_attrs).
  rewrite (replace_without_lt _ Sanitize.re_tag) by
    (done || apply opens_with_lt_re_tag).
  done.
Qed.

Lemma text_without_markup_is_only_trimmed_witness :
  Sanitize.sanitizeTitle (u16 " Buy milk ") = u16 "Buy milk"
  ∧ SanitizePart000.sanitizeTitle (u16 " Buy milk ") = u16 "Buy milk"
  ∧ Sanitize.plainText (u16 " Buy milk ") = u16 "Buy milk".
Proof.
  apply (text_without_markup_is_only_trimmed (u16 " Buy milk ")). by_evaluation.
Defined.

(** X5.  The results of [sanitizeTitle] (either version) and of [plainText]
    neither start nor end with a blank, and trimming them again changes
    nothing. *)
Theorem sanitizer_results_are_trimmed html :
  let trimmed s :=
    trim s = s
    ∧ match s with [] => True | c :: _ => is_space c = false end
    ∧ match rev s with [] => True | c :: _ => is_space c = false end in
  trimmed (Sanitize.sanitizeTitle html)
  ∧ trimmed (SanitizePart000.sanitizeTitle html)
  ∧ trimmed (Sanitize.plainText html).
Proof.
  cbn zeta. unfold Sanitize.sanitizeTitle, SanitizePart000.sanitizeTitle,
    Sanitize.plainText.
  repeat split; try apply trim_idempotent; apply trim_ends.
Qed.

(** ** The scan of [replace], piece by piece *)

Lemma prev_after_cons prev x t : prev_after prev (x :: t) = prev_after (Some x) t.
Proof.
  unfold prev_after. destruct t as [|y t]; [reflexivity|].
  rewrite last_cons_cons. destruct (last (y :: t)) eqn:E; [done|].
  by apply last_None in E.
Qed.

Section Scan.
Context (ci : bool) (r : regex) (repl : option str → str).

Lemma replace_from_skip n prev s :
  n ≤ length s →
  replace_from ci r repl n prev s
  = replace_from ci r repl 0 (prev_after prev (take n s)) (drop n s).
Proof.
  revert n prev. induction s as [|x s IH]; intros [|n] prev Hn; simpl in Hn;
    try done; try lia.
  cbn [replace_from take drop]. rewrite prev_after_cons. apply IH. lia.
Qed.

Lemma replace_from_nomatch prev x s :
  match_here ci r prev (x :: s) = None →
  replace_from ci r repl 0 prev (x :: s)
  = x :: replace_from ci r repl 0 (Some x) s.
Proof. intros H. cbn [replace_from]. by rewrite H. Qed.

Lemma replace_from_match prev s n cap :
  match_here ci r prev s = Some (S n, cap) → S n ≤ length s →
  replace_from ci r repl 0 prev s
  = repl cap ++ replace_from ci r repl 0 (prev_after prev (take (S n) s))
                 (drop (S n) s).
Proof.
  intros H Hn. destruct s as [|x s]; [simpl in Hn; lia|].
  cbn [replace_from]. rewrite H. f_equal.
  rewrite replace_from_skip by (simpl in Hn; lia).
  cbn [take drop]. by rewrite prev_after_cons.
Qed.

Lemma replace_from_copy prev t s :
  opens_with_lt r → chr "<" ∉ t →
  replace_from ci r repl 0 prev (t ++ s)
  = t ++ replace_from ci r repl 0 (prev_after prev t) s.
Proof.
  intros Hr. revert prev. induction t as [|x t IH]; intros prev Ht; [done|].
  apply not_elem_of_cons in Ht as [Hx Ht].
  rewrite <- app_comm_cons, replace_from_nomatch
    by (by apply match_here_needs_lt).
  rewrite IH by done. by rewrite prev_after_cons.
Qed.

Lemma replace_from_end prev :
  opens_with_lt r → replace_from ci r repl 0 prev [] = [].
Proof. intros Hr. cbn [replace_from]. by rewrite match_here_needs_lt. Qed.
End Scan.

Lemma trim_between x m y :
  is_space x = false → is_space y = false → trim (x :: m ++ [y]) = x :: m ++ [y].
Proof.
  intros Hx Hy. unfold trim. rewrite (dropWhile_fixed is_space (x :: _)) by done.
  replace (rev (x :: m ++ [y])) with (y :: rev (x :: m))
    by (by rewrite app_comm_cons, rev_app_distr).
  rewrite (dropWhile_fixed is_space (y :: _)) by done.
  change (y :: rev (x :: m)) with (rev [y] ++ rev (x :: m)).
  by rewrite <- rev_app_distr, rev_involutive.
Qed.

Lemma not_gt_notin attrs :
  chr ">" ∉ attrs → Forall (λ c, not_gt c = true) attrs.
Proof.
  intros H. apply Forall_forall. intros c Hc. unfold not_gt.
  apply negb_true_iff, N.eqb_neq. by intros ->.
Qed.

Lemma match_here_open_attrs name c x sp attrs rest prev :
  txt name = Cat (Chr c) Eps → chr_eq true c x = true →
  is_space sp = true → chr ">" ∉ attrs →
  ∃ cap,
    match_here true (Sanitize.re_open name) prev
      (chr "<" :: x :: sp :: attrs ++ chr ">" :: rest)
    = Some (S (S (S (S (length attrs)))), cap).
Proof.
  intros Hname Hx Hsp Hattrs%not_gt_notin.
  remember (attrs ++ chr ">" :: rest) as tail eqn:Htail.
  assert (length tail = length attrs + S (length rest)) as Hlen
    by (subst tail; by rewrite length_app).
  unfold match_here, Sanitize.re_open. cbn [seq foldr]. rewrite Hname.
  change (chr "<") with 60%N in *. change (chr ">") with 62%N in *.
  change (txt "<") with (Cat (Chr 60) Eps). change (txt ">") with (Cat (Chr 62) Eps).
  cbn [exec]. change (chr_eq true 60 60) with true. cbv iota. rewrite Hx, Hsp.
  match goal with |- context [?F (Some sp) tail] =>
    assert (∀ a p, Forall (λ c, not_gt c = true) a →
              ∃ cap, F p (a ++ 62%N :: rest) = Some (rest, cap)) as Hstar
  end.
  { intros a p Ha. revert p.
    induction Ha as [|d a Hd _ IH]; intros p; cbn [app].
    - change (not_gt 62) with false. change (chr_eq true 62 62) with true.
      cbv iota. eauto.
    - rewrite Hd. destruct (IH (Some d)) as [cap ->]. eauto. }
  destruct (Hstar attrs (Some sp) Hattrs) as [cap Hcap].
  rewrite <- Htail in Hcap. rewrite Hcap. exists cap.
  cbn [length]. rewrite Hlen. do 2 f_equal. lia.
Qed.

(** Evaluates the comparisons of two known characters. *)
Ltac eval_chr_eq :=
  repeat match goal with
  | |- context [chr_eq true ?a ?b] =>
      let v := eval vm_compute in (chr_eq true a b) in
      match v with
      | true => change (chr_eq true a b) with true
      | false => change (chr_eq true a b) with false
      end
  end.

(** The greedy run of [[^>]*] up to the closing [>] of a tag: [F] is the loop
    of [Star not_gt] as [exec] unfolds it, [res] what the rest of the pattern
    answers at the [>]. *)
Ltac run_star_to_gt sp tail rest res Hstar :=
  match goal with
  | |- context [?F (Some sp) tail] =>
      assert (∀ a p, Forall (λ c, not_gt c = true) a →
                F p (a ++ 62%N :: rest) = Some (rest, res)) as Hstar;
      [ let a := fresh "a" in let p := fresh "p" in let Ha := fresh "Ha" in
        let d := fresh "d" in let Hd := fresh "Hd" in let IH := fresh "IH" in
        intros a p Ha; revert p;
        induction Ha as [|d a Hd _ IH]; intros p; cbn [app];
        [ change (not_gt 62) with false; change (chr_eq true 62 62) with true;
          cbv iota; reflexivity
        | rewrite Hd, IH; reflexivity ]
      | ]
  end.

Lemma match_here_attrs name sp attrs rest prev :
  name ∈ [u16 "strong"; u16 "em"; u16 "u"] →
  is_space sp = true → chr ">" ∉ attrs →
  match_here true SanitizePart000.re_attrs prev
    (chr "<" :: name ++ sp :: attrs ++ chr ">" :: rest)
  = Some (S (length name + S (S (length attrs))), Some name).
Proof.
  intros Hname Hsp Hattrs%not_gt_notin.
  remember (attrs ++ chr ">" :: rest) as tail eqn:Htail.
  assert (length tail = length attrs + S (length rest)) as Hlen
    by (subst tail; by rewrite length_app).
  assert (∀ nm : str,
            take (length (nm ++ sp :: tail) - length (sp :: tail))
              (nm ++ sp :: tail) = nm) as Htake.
  { intros nm. rewrite length_app.
    replace (length nm + length (sp :: tail) - length (sp :: tail))
      with (length nm) by lia.
    apply take_app_length. }
  unfold match_here, SanitizePart000.re_attrs. cbn [seq foldr].
  change (chr "<") with 60%N in *. change (chr ">") with 62%N in *.
  let t := eval vm_compute in (txt "<") in change (txt "<") with t.
  let t := eval vm_compute in (txt ">") in change (txt ">") with t.
  let t := eval vm_compute in (txt "strong") in change (txt "strong") with t.
  let t := eval vm_compute in (txt "em") in change (txt "em") with t.
  let t := eval vm_compute in (txt "u") in change (txt "u") with t.
  repeat (apply elem_of_cons in Hname as [->|Hname]);
    [..|by apply elem_of_nil in Hname].
  all: cbn [exec app u16 map String.list_ascii_of_string]; eval_chr_eq;
       cbv iota; rewrite Hsp.
  - run_star_to_gt sp tail rest
      (Some (take (length (u16 "strong" ++ sp :: tail) - length (sp :: tail))
               (u16 "strong" ++ sp :: tail))) Hstar.
    pose proof (Hstar attrs (Some sp) Hattrs) as Hcap.
    rewrite <- Htail in Hcap. rewrite Hcap, Htake.
    cbn [length]. rewrite Hlen. do 2 f_equal. lia.
  - run_star_to_gt sp tail rest
      (Some (take (length (u16 "em" ++ sp :: tail) - length (sp :: tail))
               (u16 "em" ++ sp :: tail))) Hstar.
    pose proof (Hstar attrs (Some sp) Hattrs) as Hcap.
    rewrite <- Htail in Hcap. rewrite Hcap, Htake.
    cbn [length]. rewrite Hlen. do 2 f_equal. lia.
  - run_star_to_gt sp tail rest
      (Some (take (length (u16 "u" ++ sp :: tail) - length (sp :: tail))
               (u16 "u" ++ sp :: tail))) Hstar.
    pose proof (Hstar attrs (Some sp) Hattrs) as Hcap.
    rewrite <- Htail in Hcap. rewrite Hcap, Htake.
    cbn [length]. rewrite Hlen. do 2 f_equal. lia.
Qed.

Lemma replace_keeps_wrapped ci r repl o t c :
  opens_with_lt r → chr "<" ∉ o → chr "<" ∉ t → chr "<" ∉ c →
  (∀ prev rest, match_here ci r prev (chr "<" :: o ++ rest) = None) →
  (∀ prev, match_here ci r prev (chr "<" :: c) = None) →
  replace ci r repl (chr "<" :: o ++ t ++ chr "<" :: c)
  = chr "<" :: o ++ t ++ chr "<" :: c.
Proof.
  intros Hr Ho Ht Hc Hopen Hclose. unfold replace.
  rewrite replace_from_nomatch by apply Hopen. f_equal.
  rewrite app_assoc, replace_from_copy
    by (done || (apply not_elem_of_app; by split)).
  f_equal.
  rewrite replace_from_nomatch by apply Hclose. f_equal.
  rewrite <- (app_nil_r c) at 1. rewrite replace_from_copy by done.
  by rewrite replace_from_end, app_nil_r.
Qed.

Lemma replace_open_tag name c x R sp attrs t cl :
  txt name = Cat (Chr c) Eps → chr_eq true c x = true →
  is_space sp = true → chr ">" ∉ attrs → chr "<" ∉ t → chr "<" ∉ cl →
  (∀ prev, match_here true (Sanitize.re_open name) prev (chr "<" :: cl) = None) →
  replace true (Sanitize.re_open name) (λ _, R)
    (chr "<" :: x :: sp :: attrs ++ chr ">" :: t ++ chr "<" :: cl)
  = R ++ t ++ chr "<" :: cl.
Proof.
  intros Hname Hx Hsp Hattrs Ht Hcl Hclose. unfold replace.
  destruct (match_here_open_attrs name c x sp attrs (t ++ chr "<" :: cl) None
              Hname Hx Hsp Hattrs) as [cap Hm].
  rewrite (replace_from_match _ _ _ _ _ _ _ Hm)
    by (cbn [length]; rewrite length_app; cbn [length]; lia).
  f_equal.
  change (chr "<" :: x :: sp :: attrs ++ chr ">" :: t ++ chr "<" :: cl)
    with ([chr "<"; x; sp] ++ attrs ++ [chr ">"] ++ t ++ chr "<" :: cl).
  replace (S (S (S (S (length attrs)))))
    with (length ([chr "<"; x; sp] ++ attrs ++ [chr ">"]))
    by (rewrite !length_app; cbn [length]; lia).
  rewrite !app_assoc, <- !(app_assoc _ t). rewrite drop_app_length.
  rewrite replace_from_copy by (done || apply opens_with_lt_re_open).
  f_equal. rewrite replace_from_nomatch by apply Hclose. f_equal.
  rewrite <- (app_nil_r cl) at 1.
  rewrite replace_from_copy by (done || apply opens_with_lt_re_open).
  by rewrite replace_from_end, app_nil_r by apply opens_with_lt_re_open.
Qed.

Lemma match_here_open_bare name c x rest prev :
  txt name = Cat (Chr c) Eps → chr_eq true c x = true →
  match_here true (Sanitize.re_open name) prev (chr "<" :: x :: chr ">" :: rest)
  = Some (3, None).
Proof.
  intros Hname Hx.
  unfold match_here, Sanitize.re_open. cbn [seq foldr]. rewrite Hname.
  change (chr "<") with 60%N in *. change (chr ">") with 62%N in *.
  change (txt "<") with (Cat (Chr 60) Eps). change (txt ">") with (Cat (Chr 62) Eps).
  cbn [exec]. change (chr_eq true 60 60) with true. cbv iota. rewrite Hx.
  change (is_space 62) with false. change (chr_eq true 62 62) with true.
  cbv iota. cbn [length]. do 2 f_equal. lia.
Qed.

Lemma replace_open_tag_bare name c x R t cl :
  txt name = Cat (Chr c) Eps → chr_eq true c x = true →
  chr "<" ∉ t → chr "<" ∉ cl →
  (∀ prev, match_here true (Sanitize.re_open name) prev (chr "<" :: cl) = None) →
  replace true (Sanitize.re_open name) (λ _, R)
    (chr "<" :: x :: chr ">" :: t ++ chr "<" :: cl)
  = R ++ t ++ chr "<" :: cl.
Proof.
  intros Hname Hx Ht Hcl Hclose. unfold replace.
  rewrite (replace_from_match _ _ _ _ _ _ _
             (match_here_open_bare name c x _ None Hname Hx))
    by (cbn [length]; lia).
  f_equal. cbn [drop]. rewrite drop_0.
  rewrite replace_from_copy by (done || apply opens_with_lt_re_open).
  f_equal. rewrite replace_from_nomatch by apply Hclose. f_equal.
  rewrite <- (app_nil_r cl) at 1.
  rewrite replace_from_copy by (done || apply opens_with_lt_re_open).
  by rewrite replace_from_end, app_nil_r by apply opens_with_lt_re_open.
Qed.

Lemma attribute_part_no_lt a : attribute_part a → chr "<" ∉ a.
Proof.
  intros [->|(sp & attrs & -> & Hsp & Hlt & _)]; [apply not_elem_of_nil|].
  apply not_elem_of_cons. split; [|done]. intros <-. by vm_compute in Hsp.
Qed.

Lemma replace_open_any name c x R a t cl :
  txt name = Cat (Chr c) Eps → chr_eq true c x = true →
  attribute_part a → chr "<" ∉ t → chr "<" ∉ cl →
  (∀ prev, match_here true (Sanitize.re_open name) prev (chr "<" :: cl) = None) →
  replace true (Sanitize.re_open name) (λ _, R)
    (chr "<" :: x :: a ++ chr ">" :: t ++ chr "<" :: cl)
  = R ++ t ++ chr "<" :: cl.
Proof.
  intros Hname Hx [->|(sp & attrs & -> & Hsp & Hlt & Hgt)] Ht Hcl Hclose.
  - by apply (replace_open_tag_bare name c).
  - by apply (replace_open_tag name c).
Qed.

Lemma replace_close_tag name R o t cl :
  chr "<" ∉ o → chr "<" ∉ t →
  (∀ prev rest, match_here true (Sanitize.re_close name) prev (chr "<" :: o ++ rest) = None) →
  (∀ prev, replace_from true (Sanitize.re_close name) (λ _, R) 0 prev
             (chr "<" :: cl) = R) →
  replace true (Sanitize.re_close name) (λ _, R) (chr "<" :: o ++ t ++ chr "<" :: cl)
  = chr "<" :: o ++ t ++ R.
Proof.
  intros Ho Ht Hopen Hclose. unfold replace.
  rewrite replace_from_nomatch by apply Hopen. f_equal.
  rewrite app_assoc, replace_from_copy
    by (apply opens_with_lt_re_close || (apply not_elem_of_app; by split)).
  by rewrite Hclose, <- app_assoc.
Qed.

Lemma opens_with_lt_any r :
  r = Sanitize.re_open "b" ∨ r = Sanitize.re_close "b"
  ∨ r = Sanitize.re_open "i" ∨ r = Sanitize.re_close "i"
  ∨ r = Sanitize.re_disallowed ∨ r = SanitizePart000.re_script
  ∨ r = SanitizePart000.re_attrs →
  opens_with_lt r.
Proof.
  intros [->|[->|[->|[->|[->|[->| ->]]]]]]; by apply opens_with_lt_seq_txt.
Qed.

(** Side conditions of the pass lemmas on known tags. *)
Ltac no_lt :=
  repeat first
    [ assumption
    | by_evaluation
    | apply not_elem_of_app; split
    | apply not_elem_of_cons; split; [first [assumption | by_evaluation]|] ].
Ltac pass_side :=
  first
    [ apply opens_with_lt_any; tauto
    | by (intros; reflexivity)
    | no_lt ].

(** The last rules and [trim] leave a bare allowed element as it is. *)
Lemma bare_element_is_kept name t :
  name ∈ [u16 "strong"; u16 "em"] → chr "<" ∉ t →
  let w := chr "<" :: (name ++ [chr ">"]) ++ t ++ chr "<" :: (chr "/" :: name ++ [chr ">"]) in
  replace true (Sanitize.re_open "i") (const_repl "<em>") w = w
  ∧ replace true (Sanitize.re_close "i") (const_repl "</em>") w = w
  ∧ replace true Sanitize.re_disallowed remove w = w
  ∧ replace true SanitizePart000.re_attrs
      (λ cap, u16 "<" ++ dollar1 cap ++ u16 ">") w = w
  ∧ trim w = w.
Proof.
  intros Hname Ht. cbn zeta.
  repeat (apply elem_of_cons in Hname as [->|Hname]);
    [..|by apply elem_of_nil in Hname].
  all: repeat split;
    try (apply replace_keeps_wrapped; pass_side).
  all: rewrite !app_comm_cons, !app_assoc; rewrite <- !app_comm_cons;
       by apply trim_between.
Qed.

Lemma legacy_shape x a t cl :
  chr "<" :: x :: a ++ chr ">" :: t ++ chr "<" :: cl
  = chr "<" :: (x :: a ++ [chr ">"]) ++ t ++ chr "<" :: cl.
Proof. cbn [app]. by rewrite <- app_assoc. Qed.

(** The first four rules on a [b] element and on an [i] element. *)
Lemma legacy_rules a t :
  attribute_part a → chr "<" ∉ t →
  let rules s :=
    replace true (Sanitize.re_close "i") (const_repl "</em>")
      (replace true (Sanitize.re_open "i") (const_repl "<em>")
      (replace true (Sanitize.re_close "b") (const_repl "</strong>")
      (replace true (Sanitize.re_open "b") (const_repl "<strong>") s))) in
  rules (chr "<" :: chr "b" :: a ++ chr ">" :: t ++ chr "<" :: u16 "/b>")
    = chr "<" :: (u16 "strong" ++ [chr ">"]) ++ t
        ++ chr "<" :: (chr "/" :: u16 "strong" ++ [chr ">"])
  ∧ rules (chr "<" :: chr "i" :: a ++ chr ">" :: t ++ chr "<" :: u16 "/i>")
    = chr "<" :: (u16 "em" ++ [chr ">"]) ++ t
        ++ chr "<" :: (chr "/" :: u16 "em" ++ [chr ">"]).
Proof.
  intros Ha Ht. pose proof (attribute_part_no_lt a Ha) as Hlt. cbn zeta.
  unfold const_repl. split.
  - rewrite (replace_open_any "b"%string (chr "b") (chr "b")); try done; try pass_side.
    change (u16 "<strong>" ++ t ++ chr "<" :: u16 "/b>")
      with (chr "<" :: u16 "strong>" ++ t ++ chr "<" :: u16 "/b>").
    rewrite replace_close_tag; try pass_side.
    destruct (bare_element_is_kept (u16 "strong") t) as (Hoi & Hci & _);
      [repeat constructor|done|]. unfold const_repl in *.
    change (chr "<" :: u16 "strong>" ++ t ++ u16 "</strong>")
      with (chr "<" :: (u16 "strong" ++ [chr ">"]) ++ t
              ++ chr "<" :: (chr "/" :: u16 "strong" ++ [chr ">"])).
    by rewrite Hoi, Hci.
  - rewrite legacy_shape.
    rewrite (replace_keeps_wrapped true (Sanitize.re_open "b")); try pass_side.
    rewrite (replace_keeps_wrapped true (Sanitize.re_close "b")); try pass_side.
    rewrite <- legacy_shape.
    rewrite (replace_open_any "i"%string (chr "i") (chr "i")); try done; try pass_side.
    change (u16 "<em>" ++ t ++ chr "<" :: u16 "/i>")
      with (chr "<" :: u16 "em>" ++ t ++ chr "<" :: u16 "/i>").
    rewrite replace_close_tag; try pass_side.
Qed.

(** X6.  A [b] element becomes a [strong] element and an [i] element an [em]
    element, with or without attributes on the opening tag, whatever the
    text inside (as long as it holds no further [<]); both versions of
    [sanitizeTitle] agree on this. *)
Theorem legacy_tags_become_semantic a t :
  attribute_part a → chr "<" ∉ t →
  Sanitize.sanitizeTitle (u16 "<b" ++ a ++ u16 ">" ++ t ++ u16 "</b>")
    = u16 "<strong>" ++ t ++ u16 "</strong>"
  ∧ Sanitize.sanitizeTitle (u16 "<i" ++ a ++ u16 ">" ++ t ++ u16 "</i>")
    = u16 "<em>" ++ t ++ u16 "</em>"
  ∧ SanitizePart000.sanitizeTitle (u16 "<b" ++ a ++ u16 ">" ++ t ++ u16 "</b>")
    = u16 "<strong>" ++ t ++ u16 "</strong>"
  ∧ SanitizePart000.sanitizeTitle (u16 "<i" ++ a ++ u16 ">" ++ t ++ u16 "</i>")
    = u16 "<em>" ++ t ++ u16 "</em>".
Proof.
  intros Ha Ht. pose proof (attribute_part_no_lt a Ha) as Hlt.
  destruct (legacy_rules a t Ha Ht) as [Hb Hi]. cbn zeta in Hb, Hi.
  destruct (bare_element_is_kept (u16 "strong") t) as (_ & _ & Hds & Has & Hts);
    [repeat constructor|done|].
  destruct (bare_element_is_kept (u16 "em") t) as (_ & _ & Hde & Hae & Hte);
    [repeat constructor|done|].
  cbn zeta in *.
  unfold Sanitize.sanitizeTitle, SanitizePart000.sanitizeTitle.
  change (u16 "<b" ++ a ++ u16 ">" ++ t ++ u16 "</b>")
    with (chr "<" :: chr "b" :: a ++ chr ">" :: t ++ chr "<" :: u16 "/b>").
  change (u16 "<i" ++ a ++ u16 ">" ++ t ++ u16 "</i>")
    with (chr "<" :: chr "i" :: a ++ chr ">" :: t ++ chr "<" :: u16 "/i>").
  assert (∀ x cl, chr "<" ≠ x → chr "<" ∉ cl →
            (∀ prev rest, match_here true SanitizePart000.re_script prev
                            (chr "<" :: (x :: a ++ [chr ">"]) ++ rest) = None) →
            (∀ prev, match_here true SanitizePart000.re_script prev
                       (chr "<" :: cl) = None) →
            replace true SanitizePart000.re_script remove
              (chr "<" :: x :: a ++ chr ">" :: t ++ chr "<" :: cl)
            = chr "<" :: x :: a ++ chr ">" :: t ++ chr "<" :: cl) as Hscript.
  { intros x cl Hx Hcl Ho Hc. rewrite legacy_shape.
    apply replace_keeps_wrapped; pass_side. }
  rewrite !Hscript by pass_side.
  rewrite Hb, Hi, Hds, Hde, Has, Hae, Hts, Hte.
  repeat split; cbn [app]; by rewrite <- ?app_assoc.
Qed.

Lemma legacy_tags_become_semantic_witness :
  gives Sanitize.sanitizeTitle "<b style='x'>hi</b>" "<strong>hi</strong>"
  ∧ gives Sanitize.sanitizeTitle "<i style='x'>hi</i>" "<em>hi</em>"
  ∧ gives SanitizePart000.sanitizeTitle "<b style='x'>hi</b>" "<strong>hi</strong>"
  ∧ gives SanitizePart000.sanitizeTitle "<i style='x'>hi</i>" "<em>hi</em>".
Proof.
  apply (legacy_tags_become_semantic (u16 " style='x'") (u16 "hi")).
  - right. exists 32%N, (u16 "style='x'").
    split; [reflexivity|]. split; [reflexivity|]. split; by_evaluation.
  - by_evaluation.
Defined.

Lemma is_space_not_word c : is_space c = true → is_word c = false.
Proof.
  intros Hs. destruct (is_word c) eqn:Hw; [|done]. exfalso.
  unfold is_word, is_space in *.
  repeat (apply orb_true_iff in Hw as [Hw|Hw]);
    repeat (apply andb_true_iff in Hw as [?%N.leb_le ?%N.leb_le]);
    try apply N.eqb_eq in Hw;
    repeat (apply orb_true_iff in Hs as [Hs|Hs]);
    repeat (apply andb_true_iff in Hs as [?%N.leb_le ?%N.leb_le]);
    try apply N.eqb_eq in Hs; lia.
Qed.

Lemma disallowed_skips_allowed_tag name sp rest prev :
  name ∈ [u16 "strong"; u16 "em"; u16 "u"] → is_space sp = true →
  match_here true Sanitize.re_disallowed prev (chr "<" :: name ++ sp :: rest) = None.
Proof.
  intros Hname Hsp%is_space_not_word.
  unfold match_here, Sanitize.re_disallowed. cbn [seq foldr].
  change (chr "<") with 60%N in *.
  let t := eval vm_compute in (txt "<") in change (txt "<") with t.
  let t := eval vm_compute in (txt ">") in change (txt ">") with t.
  let t := eval vm_compute in (txt "/") in change (txt "/") with t.
  let t := eval vm_compute in (txt "strong") in change (txt "strong") with t.
  let t := eval vm_compute in (txt "em") in change (txt "em") with t.
  let t := eval vm_compute in (txt "u") in change (txt "u") with t.
  repeat (apply elem_of_cons in Hname as [->|Hname]);
    [..|by apply elem_of_nil in Hname].
  all: cbn [exec app u16 map String.list_ascii_of_string word_here word_before];
       eval_chr_eq; cbv iota; rewrite Hsp.
  all: reflexivity.
Qed.

Lemma replace_attrs_tag name sp attrs t cl :
  name ∈ [u16 "strong"; u16 "em"; u16 "u"] →
  is_space sp = true → chr ">" ∉ attrs → chr "<" ∉ t → chr "<" ∉ cl →
  (∀ prev, match_here true SanitizePart000.re_attrs prev (chr "<" :: cl) = None) →
  replace true SanitizePart000.re_attrs (λ cap, u16 "<" ++ dollar1 cap ++ u16 ">")
    (chr "<" :: name ++ sp :: attrs ++ chr ">" :: t ++ chr "<" :: cl)
  = chr "<" :: name ++ chr ">" :: t ++ chr "<" :: cl.
Proof.
  intros Hname Hsp Hattrs Ht Hcl Hclose. unfold replace.
  pose proof (match_here_attrs name sp attrs (t ++ chr "<" :: cl) None
                Hname Hsp Hattrs) as Hm.
  rewrite (replace_from_match _ _ _ _ _ _ _ Hm)
    by (repeat first [rewrite length_app | progress cbn [length]]; lia).
  cbn [dollar1 default].
  transitivity ((u16 "<" ++ name ++ u16 ">") ++ t ++ chr "<" :: cl);
    [f_equal|change (u16 "<") with [chr "<"]; change (u16 ">") with [chr ">"];
             cbn [app]; by rewrite <- app_assoc].
  replace (chr "<" :: name ++ sp :: attrs ++ chr ">" :: t ++ chr "<" :: cl)
    with ((chr "<" :: name ++ sp :: attrs ++ [chr ">"]) ++ t ++ chr "<" :: cl)
    by (cbn [app]; rewrite <- !app_assoc; cbn [app]; by rewrite <- app_assoc).
  replace (S (length name + S (S (length attrs))))
    with (length (chr "<" :: name ++ sp :: attrs ++ [chr ">"]))
    by (repeat first [rewrite length_app | progress cbn [length]]; lia).
  rewrite drop_app_length.
  rewrite replace_from_copy by (done || apply opens_with_lt_re_attrs).
  f_equal. rewrite replace_from_nomatch by apply Hclose. f_equal.
  rewrite <- (app_nil_r cl) at 1.
  rewrite replace_from_copy by (done || apply opens_with_lt_re_attrs).
  by rewrite replace_from_end, app_nil_r by apply opens_with_lt_re_attrs.
Qed.

Lemma attrs_shape name sp attrs t x :
  chr "<" :: name ++ sp :: attrs ++ chr ">" :: t ++ x
  = chr "<" :: (name ++ sp :: attrs ++ [chr ">"]) ++ t ++ x.
Proof. f_equal. rewrite <- app_assoc. cbn [app]. by rewrite <- app_assoc. Qed.

(** X7.  The version of [unnamed/part_000] strips the attributes of an
    allowed element: [<name attrs>text</name>] becomes [<name>text</name>] for
    [strong], [em] and [u], whatever the attributes (no [<] or [>] in them)
    and the text (no [<] in it). *)
Theorem attributes_of_allowed_tags_are_stripped name sp attrs t :
  name ∈ [u16 "strong"; u16 "em"; u16 "u"] →
  is_space sp = true → chr "<" ∉ attrs → chr ">" ∉ attrs → chr "<" ∉ t →
  SanitizePart000.sanitizeTitle
    (u16 "<" ++ name ++ sp :: attrs ++ u16 ">" ++ t ++ u16 "</" ++ name ++ u16 ">")
  = u16 "<" ++ name ++ u16 ">" ++ t ++ u16 "</" ++ name ++ u16 ">".
Proof.
  intros Hname Hsp Hlt Hgt Ht.
  assert (chr "<" ≠ sp) as Hsp_lt by (intros <-; by vm_compute in Hsp).
  change (u16 "<" ++ name ++ sp :: attrs ++ u16 ">" ++ t ++ u16 "</" ++ name ++ u16 ">")
    with (chr "<" :: name ++ sp :: attrs ++ chr ">" :: t
            ++ chr "<" :: (chr "/" :: name ++ [chr ">"])).
  change (u16 "<" ++ name ++ u16 ">" ++ t ++ u16 "</" ++ name ++ u16 ">")
    with (chr "<" :: name ++ chr ">" :: t ++ chr "<" :: (chr "/" :: name ++ [chr ">"])).
  assert (∀ prev rest,
            match_here true Sanitize.re_disallowed prev
              (chr "<" :: (name ++ sp :: attrs ++ [chr ">"]) ++ rest) = None) as Hd.
  { intros prev rest. rewrite <- app_assoc. cbn [app].
    by apply disallowed_skips_allowed_tag. }
  unfold SanitizePart000.sanitizeTitle. rewrite attrs_shape.
  repeat (apply elem_of_cons in Hname as [->|Hname]);
    [..|by apply elem_of_nil in Hname].
  all: rewrite (replace_keeps_wrapped true SanitizePart000.re_script)
         by first [exact Hd | pass_side];
       rewrite (replace_keeps_wrapped true (Sanitize.re_open "b"))
         by first [exact Hd | pass_side];
       rewrite (replace_keeps_wrapped true (Sanitize.re_close "b"))
         by first [exact Hd | pass_side];
       rewrite (replace_keeps_wrapped true (Sanitize.re_open "i"))
         by first [exact Hd | pass_side];
       rewrite (replace_keeps_wrapped true (Sanitize.re_close "i"))
         by first [exact Hd | pass_side];
       rewrite (replace_keeps_wrapped true Sanitize.re_disallowed)
         by first [exact Hd | pass_side];
       rewrite <- attrs_shape;
       rewrite replace_attrs_tag by first [done | by repeat constructor | pass_side];
       rewrite !app_comm_cons, !app_assoc; rewrite <- !app_comm_cons;
       by apply trim_between.
Qed.

Lemma attributes_of_allowed_tags_are_stripped_witness :
  gives SanitizePart000.sanitizeTitle "<em class='foo'>text</em>" "<em>text</em>".
Proof.
  apply (attributes_of_allowed_tags_are_stripped
           (u16 "em") 32%N (u16 "class='foo'") (u16 "text"));
    first [reflexivity | by_evaluation].
Defined.

(** ** [deleteTask] and [updateTask] *)

Lemma filter_filter_idem {A} (p : A → bool) (l : list A) :
  List.filter p (List.filter p l) = List.filter p l.
Proof.
  apply filter_all. intros x Hx. by apply filter_elem_of in Hx as [_ ?].
Qed.

Lemma sublist_fmap_id (l1 l2 : list Task) :
  l1 `sublist_of` l2 → (id <$> l1) `sublist_of` (id <$> l2).
Proof. intros H. by apply fmap_sublist. Qed.

(** X8.  [deleteTask i] keeps exactly the tasks whose id is not [i], in
    their order; afterwards no task has id [i], deleting again changes
    nothing, and when no task had id [i] the collection is unchanged. *)
Theorem deleteTask_removes_the_id i prev :
  let rest := contents prev (deleteTask i prev) in
  (∀ t, t ∈ rest ↔ t ∈ prev ∧ id t ≠ i)
  ∧ rest `sublist_of` prev
  ∧ (i ∉ id <$> rest)
  ∧ contents rest (deleteTask i rest) = rest
  ∧ (i ∉ id <$> prev → rest = prev).
Proof.
  cbn [contents deleteTask].
  assert (∀ t, t ∈ List.filter (λ t, negb (bool_decide (id t = i))) prev
             ↔ t ∈ prev ∧ id t ≠ i) as Hin.
  { intros t. rewrite filter_elem_of, negb_true_iff, bool_decide_eq_false. done. }
  split; [done|]. split; [apply filter_sublist|]. split; [|split].
  - intros (t & -> & Ht)%list_elem_of_fmap. by apply Hin in Ht as [_ ?].
  - apply filter_filter_idem.
  - intros Hi. apply filter_all. intros t Ht.
    apply negb_true_iff, bool_decide_eq_false. intros <-. apply Hi.
    by apply list_elem_of_fmap_2.
Qed.

Lemma deleteTask_removes_the_id_witness :
  (u16 "b" ∉ id <$> contents sample_tasks (deleteTask (u16 "b") sample_tasks))
  ∧ contents sample_tasks (deleteTask (u16 "ghost") sample_tasks) = sample_tasks.
Proof.
  split.
  - apply (deleteTask_removes_the_id (u16 "b") sample_tasks).
  - apply (deleteTask_removes_the_id (u16 "ghost") sample_tasks). by_evaluation.
Defined.

(** X9.  Deleting the task that was just added, under its fresh id, gives
    back the collection as it was before the add. *)
Theorem deleteTask_undoes_addTask input uuid now prev :
  uuid ∉ id <$> prev →
  contents prev
    (deleteTask uuid (contents prev (addTask input uuid now prev))) = prev.
Proof.
  intros Hfresh. cbn [contents addTask deleteTask new_task List.filter id].
  rewrite bool_decide_eq_true_2 by done. cbn [negb].
  apply filter_all. intros t Ht.
  apply negb_true_iff, bool_decide_eq_false. intros <-. apply Hfresh.
  by apply list_elem_of_fmap_2.
Qed.

Lemma deleteTask_undoes_addTask_witness :
  contents sample_tasks
    (deleteTask (u16 "id-9")
       (contents sample_tasks
          (addTask sample_input (u16 "id-9") (u16 "2026-02-20T00:00:00.000Z")
             sample_tasks)))
  = sample_tasks.
Proof. apply deleteTask_undoes_addTask. by_evaluation. Defined.

Lemma map_ext_lookup {A B} (f g : A → B) (l : list A) :
  (∀ x, x ∈ l → f x = g x) → map f l = map g l.
Proof. intros H. apply map_ext_in. intros x Hx. apply H. by apply list_elem_of_In. Qed.

(** X10.  [updateTask i title] replaces the title of the tasks with id [i]
    and nothing else: the other fields of those tasks, the other tasks, the
    order, the ids and the [completed] flags are as before; an unknown id
    changes nothing, and of two updates of the same id the second wins. *)
Theorem updateTask_changes_only_the_title i new_title prev :
  let next := contents prev (updateTask i new_title prev) in
  length next = length prev
  ∧ (∀ k t, prev !! k = Some t → id t = i →
       next !! k = Some {| id := id t; title := new_title;
                           completed := completed t; priority := priority t;
                           createdAt := createdAt t; dueDate := dueDate t |})
  ∧ (∀ k t, prev !! k = Some t → id t ≠ i → next !! k = Some t)
  ∧ map id next = map id prev
  ∧ map completed next = map completed prev
  ∧ (i ∉ id <$> prev → next = prev)
  ∧ ∀ newer, contents next (updateTask i newer next)
             = contents prev (updateTask i newer prev).
Proof.
  cbn [contents updateTask]. repeat split.
  - apply length_map.
  - intros k t Hk Hi. rewrite lookup_map, Hk. simpl.
    by rewrite bool_decide_eq_true_2.
  - intros k t Hk Hi. rewrite lookup_map, Hk. simpl.
    by rewrite bool_decide_eq_false_2.
  - rewrite map_map. apply map_ext. intros t. by destruct (bool_decide _).
  - rewrite map_map. apply map_ext. intros t. by destruct (bool_decide _).
  - intros Hi. rewrite <- (map_id prev) at 2. apply map_ext_lookup. intros t Ht.
    rewrite bool_decide_eq_false_2; [done|]. intros <-. apply Hi.
    by apply list_elem_of_fmap_2.
  - intros newer. rewrite map_map. apply map_ext. intros t.
    destruct (bool_decide (id t = i)) eqn:Ht; simpl; rewrite Ht; done.
Qed.

Lemma updateTask_changes_only_the_title_witness :
  contents sample_tasks (updateTask (u16 "b") (u16 "New") sample_tasks) !! 1
  = Some {| id := u16 "b"; title := u16 "New"; completed := true;
            priority := medium; createdAt := u16 "2026-01-01T00:00:00.000Z";
            dueDate := None |}
  ∧ contents sample_tasks (updateTask (u16 "b") (u16 "New") sample_tasks) !! 0
    = Some (sample_task "c" false)
  ∧ contents sample_tasks (updateTask (u16 "ghost") (u16 "New") sample_tasks)
    = sample_tasks.
Proof.
  destruct (updateTask_changes_only_the_title (u16 "b") (u16 "New") sample_tasks)
    as (_ & Hhit & Hmiss & _).
  destruct (updateTask_changes_only_the_title (u16 "ghost") (u16 "New") sample_tasks)
    as (_ & _ & _ & _ & _ & Hghost & _).
  split; [|split].
  - apply (Hhit 1 (sample_task "b" true)); reflexivity.
  - apply (Hmiss 0 (sample_task "c" false)); [reflexivity|by_evaluation].
  - apply Hghost. by_evaluation.
Defined.

(** ** The filtered view *)

(** X11.  The filtered view holds exactly the tasks of the collection that
    pass the status filter and the priority filter, in the order of the
    collection; with both filters on [all] it is the whole collection. *)
Theorem filteredTasks_selects_by_both_filters st :
  (∀ t, t ∈ filteredTasks st ↔
     t ∈ tasks st
     ∧ match filterStatus st with
       | FilterStatus.all => True
       | FilterStatus.active => completed t = false
       | FilterStatus.completed => completed t = true
       end
     ∧ match filterPriority st with
       | PriorityFilter.all => True
       | PriorityFilter.only p => priority t = p
       end)
  ∧ filteredTasks st `sublist_of` tasks st
  ∧ (filterStatus st = FilterStatus.all → filterPriority st = PriorityFilter.all →
       filteredTasks st = tasks st).
Proof.
  unfold filteredTasks. split; [|split].
  - intros t. rewrite filter_elem_of, andb_true_iff.
    destruct (filterStatus st), (filterPriority st); simpl;
      rewrite ?negb_true_iff, ?bool_decide_eq_true; tauto.
  - apply filter_sublist.
  - intros -> ->. by apply filter_all.
Qed.

Lemma filteredTasks_selects_by_both_filters_witness :
  filteredTasks (sample_state sample_tasks None) = sample_tasks
  ∧ sample_task "b" true
    ∈ filteredTasks {| tasks := sample_tasks;
                       filterStatus := FilterStatus.completed;
                       filterPriority := PriorityFilter.only medium;
                       storageError := None |}.
Proof.
  split.
  - apply (filteredTasks_selects_by_both_filters (sample_state sample_tasks None));
      reflexivity.
  - apply (filteredTasks_selects_by_both_filters
             {| tasks := sample_tasks;
                filterStatus := FilterStatus.completed;
                filterPriority := PriorityFilter.only medium;
                storageError := None |}).
    split; [by_evaluation|]. split; reflexivity.
Defined.

Lemma filter_length_and {A} (p q : A → bool) (l : list A) :
  length (List.filter (λ x, negb (q x) && p x) l)
  + length (List.filter (λ x, q x && p x) l)
  = length (List.filter p l).
Proof.
  induction l as [|x l IH]; simpl; [done|].
  destruct (q x), (p x); simpl; lia.
Qed.

(** X12.  Under any priority filter the [active] tab and the [completed] tab
    together show as many tasks as the [all] tab; [stats.active] and
    [stats.completed] are the sizes of the two tabs without priority filter,
    and no view is larger than [stats.total]. *)
Theorem status_tabs_partition_the_view fp st :
  let shown fs := length (filteredTasks (with_filters fs fp st)) in
  shown FilterStatus.active + shown FilterStatus.completed = shown FilterStatus.all
  ∧ Stats.active (stats st)
    = length (filteredTasks (with_filters FilterStatus.active PriorityFilter.all st))
  ∧ Stats.completed (stats st)
    = length (filteredTasks (with_filters FilterStatus.completed PriorityFilter.all st))
  ∧ shown FilterStatus.all ≤ Stats.total (stats st).
Proof.
  cbn zeta. unfold filteredTasks, with_filters, stats. simpl.
  split; [|split; [|split]].
  - rewrite (filter_length_and (priorityMatch fp) completed).
    f_equal. 
  - f_equal. apply List.filter_ext. intros t. by rewrite andb_true_r.
  - f_equal. apply List.filter_ext. intros t. by rewrite andb_true_r.
  - apply sublist_length, filter_sublist.
Qed.

(** ** Reordering *)

Lemma arrayMove_Permutation {A} (l moved : list A) i j :
  arrayMove l i j = Some moved → l ≡ₚ moved.
Proof.
  unfold arrayMove. destruct (l !! i) as [x|] eqn:Hx; [|done]. intros [= <-].
  etrans; [apply (delete_Permutation l i x Hx)|].
  rewrite <- Permutation_middle. by rewrite take_drop.
Qed.

Lemma reorderTasks_Permutation activeId overId prev :
  prev ≡ₚ contents prev (reorderTasks activeId overId prev).
Proof.
  unfold reorderTasks.
  destruct (findIndex _ prev) as [i|]; [|done].
  destruct (findIndex _ prev) as [j|]; [|done].
  destruct (arrayMove prev i j) as [moved|] eqn:Hm; [|done].
  by apply arrayMove_Permutation in Hm.
Qed.

Lemma filter_length_Permutation {A} (p : A → bool) (l1 l2 : list A) :
  l1 ≡ₚ l2 → length (List.filter p l1) = length (List.filter p l2).
Proof.
  induction 1 as [|x l1 l2 _ IH|x y l|l1 l2 l3 _ IH1 _ IH2]; simpl.
  - done.
  - destruct (p x); simpl; lia.
  - destruct (p x), (p y); simpl; lia.
  - lia.
Qed.

(** X13.  [reorderTasks] only permutes: the collection afterwards has the
    same tasks, none lost and none duplicated, and the three statistics are
    unchanged. *)
Theorem reorderTasks_only_permutes JSON_stringify localStorage activeId overId st :
  let st' := dispatch JSON_stringify localStorage (Reorder activeId overId) st in
  tasks st ≡ₚ tasks st'
  ∧ stats st' = stats st
  ∧ (∀ t, t ∈ tasks st' ↔ t ∈ tasks st).
Proof.
  cbn zeta. rewrite tasks_dispatch. cbn [updater].
  pose proof (reorderTasks_Permutation activeId overId (tasks st)) as Hperm.
  split; [done|]. split.
  - unfold stats. rewrite tasks_dispatch. cbn [updater].
    rewrite <- (Permutation_length Hperm).
    by rewrite <- !(filter_length_Permutation _ _ _ Hperm).
  - intros t. by rewrite <- Hperm.
Qed.

Section ArrayMoveSplit.
Context {A : Type}.
Implicit Types l : list A.

Lemma arrayMove_forward l1 x l2 y l3 :
  arrayMove (l1 ++ x :: l2 ++ y :: l3) (length l1) (length l1 + S (length l2))
  = Some (l1 ++ l2 ++ y :: x :: l3).
Proof.
  unfold arrayMove. rewrite list_lookup_middle by done.
  rewrite delete_middle. f_equal.
  replace (l1 ++ l2 ++ y :: l3) with ((l1 ++ l2 ++ [y]) ++ l3)
    by (by rewrite <- !app_assoc).
  assert (length (l1 ++ l2 ++ [y]) = length l1 + S (length l2)) as <-
    by (rewrite !length_app; simpl; lia).
  rewrite take_app_length, drop_app_length.
  by rewrite <- !app_assoc.
Qed.

Lemma arrayMove_backward l1 y l2 x l3 :
  arrayMove (l1 ++ y :: l2 ++ x :: l3) (length l1 + S (length l2)) (length l1)
  = Some (l1 ++ x :: y :: l2 ++ l3).
Proof.
  unfold arrayMove.
  replace (l1 ++ y :: l2 ++ x :: l3) with ((l1 ++ y :: l2) ++ x :: l3)
    by (by rewrite <- app_assoc).
  assert (length (l1 ++ y :: l2) = length l1 + S (length l2)) as <-
    by (rewrite length_app; simpl; lia).
  rewrite list_lookup_middle by done. rewrite delete_middle. f_equal.
  rewrite <- !app_assoc. by rewrite take_app_length, drop_app_length.
Qed.
End ArrayMoveSplit.

Lemma findIndex_app_absent {A} (p : A → bool) (l1 l2 : list A) :
  (∀ x, x ∈ l1 → p x = false) →
  findIndex p (l1 ++ l2) = (λ n, length l1 + n) <$> findIndex p l2.
Proof.
  induction l1 as [|x l1 IH]; intros H; simpl.
  - by destruct (findIndex p l2).
  - rewrite (H x) by (by left). rewrite IH by (intros y Hy; apply H; by right).
    by destruct (findIndex p l2).
Qed.

Lemma findIndex_middle (l1 l2 : list Task) t :
  id t ∉ id <$> l1 →
  findIndex (has_id (id t)) (l1 ++ t :: l2) = Some (length l1).
Proof.
  intros Hfresh. rewrite findIndex_app_absent.
  - simpl. rewrite bool_decide_eq_true_2 by done. simpl. f_equal. lia.
  - intros u Hu. apply bool_decide_eq_false. intros Heq. apply Hfresh.
    rewrite <- Heq. by apply list_elem_of_fmap_2.
Qed.

Lemma reorderTasks_forward l1 ta l2 tb l3 :
  id ta ∉ id <$> l1 → id tb ∉ id <$> (l1 ++ ta :: l2) →
  reorderTasks (id ta) (id tb) (l1 ++ ta :: l2 ++ tb :: l3)
  = New (l1 ++ l2 ++ tb :: ta :: l3).
Proof.
  intros Ha Hb. unfold reorderTasks.
  rewrite (findIndex_middle l1 _ ta Ha).
  replace (l1 ++ ta :: l2 ++ tb :: l3) with ((l1 ++ ta :: l2) ++ tb :: l3)
    by (by rewrite <- app_assoc).
  rewrite (findIndex_middle _ _ tb Hb).
  rewrite <- app_assoc. cbn [app].
  replace (length (l1 ++ ta :: l2)) with (length l1 + S (length l2))
    by (rewrite length_app; simpl; lia).
  by rewrite arrayMove_forward.
Qed.

Lemma reorderTasks_backward l1 tb l2 ta l3 :
  id tb ∉ id <$> l1 → id ta ∉ id <$> (l1 ++ tb :: l2) →
  reorderTasks (id ta) (id tb) (l1 ++ tb :: l2 ++ ta :: l3)
  = New (l1 ++ ta :: tb :: l2 ++ l3).
Proof.
  intros Hb Ha. unfold reorderTasks.
  rewrite (findIndex_middle l1 _ tb Hb).
  replace (l1 ++ tb :: l2 ++ ta :: l3) with ((l1 ++ tb :: l2) ++ ta :: l3)
    by (by rewrite <- app_assoc).
  rewrite (findIndex_middle _ _ ta Ha).
  rewrite <- app_assoc. cbn [app].
  replace (length (l1 ++ tb :: l2)) with (length l1 + S (length l2))
    by (rewrite length_app; simpl; lia).
  by rewrite arrayMove_backward.
Qed.

Lemma reorderTasks_same_id i prev :
  contents prev (reorderTasks i i prev) = prev.
Proof.
  unfold reorderTasks.
  destruct (findIndex (has_id i) prev) as [n|] eqn:Hn; [|done].
  destruct (findIndex_Some _ _ _ Hn) as [x [Hx _]].
  by rewrite (arrayMove_same _ _ _ Hx).
Qed.

Lemma NoDup_ids_split l1 t l2 :
  NoDup (id <$> (l1 ++ t :: l2)) →
  (id t ∉ id <$> l1) ∧ (id t ∉ id <$> l2)
  ∧ NoDup (id <$> l1) ∧ NoDup (id <$> l2).
Proof.
  rewrite fmap_app, fmap_cons. intros (H1 & Hdisj & [Ht H2]%NoDup_cons)%NoDup_app.
  repeat split; try done. intros Hin. apply (Hdisj _ Hin). by left.
Qed.

(** X14.  With distinct ids, a task dragged down onto a later task lands
    right after it, and a task dragged up onto an earlier task lands right
    before it; the tasks in between close the gap and all others stay. *)
Theorem reorderTasks_lands_next_to_the_target l1 ta l2 tb l3 :
  NoDup (id <$> (l1 ++ ta :: l2 ++ tb :: l3)) →
  reorderTasks (id ta) (id tb) (l1 ++ ta :: l2 ++ tb :: l3)
    = New (l1 ++ l2 ++ tb :: ta :: l3)
  ∧ reorderTasks (id tb) (id ta) (l1 ++ ta :: l2 ++ tb :: l3)
    = New (l1 ++ tb :: ta :: l2 ++ l3).
Proof.
  intros Hnd.
  destruct (NoDup_ids_split _ _ _ Hnd) as (Ha1 & Ha2 & _ & _).
  replace (l1 ++ ta :: l2 ++ tb :: l3) with ((l1 ++ ta :: l2) ++ tb :: l3) in Hnd
    by (by rewrite <- app_assoc).
  destruct (NoDup_ids_split _ _ _ Hnd) as (Hb1 & _ & _ & _).
  split.
  - by apply reorderTasks_forward.
  - by apply reorderTasks_backward.
Qed.

Lemma reorderTasks_lands_next_to_the_target_witness :
  reorderTasks (u16 "c") (u16 "a") sample_tasks
    = New [sample_task "b" true; sample_task "a" false; sample_task "c" false]
  ∧ reorderTasks (u16 "a") (u16 "c") sample_tasks
    = New [sample_task "a" false; sample_task "c" false; sample_task "b" true].
Proof.
  apply (reorderTasks_lands_next_to_the_target
           [] (sample_task "c" false) [sample_task "b" true]
           (sample_task "a" false) []).
  by_evaluation.
Defined.

Lemma filters_dispatch_tasks JSON_stringify localStorage a st :
  (∀ f, a ≠ SetFilterStatus f) → (∀ f, a ≠ SetFilterPriority f) →
  filterStatus (dispatch JSON_stringify localStorage a st) = filterStatus st
  ∧ filterPriority (dispatch JSON_stringify localStorage a st) = filterPriority st.
Proof.
  intros H1 H2. destruct a; try (by destruct (H1 f)); try (by destruct (H2 f));
    cbn [dispatch]; unfold setTasks; by destruct (updater _ _).
Qed.

Lemma filter_absent_id (p : Task → bool) i l :
  i ∉ id <$> l → i ∉ id <$> List.filter p l.
Proof.
  intros Hi (t & -> & Ht)%list_elem_of_fmap. apply Hi.
  apply filter_elem_of in Ht as [Ht _]. by apply list_elem_of_fmap_2.
Qed.

Lemma filter_cons_true {A} (p : A → bool) x (l : list A) :
  p x = true → List.filter p (x :: l) = x :: List.filter p l.
Proof. simpl. by intros ->. Qed.

Ltac split_filter :=
  repeat (rewrite List.filter_app || rewrite filter_cons_true by done).

Lemma filter_reorder_visible (p : Task → bool) prev ta tb :
  NoDup (id <$> prev) → ta ∈ prev → tb ∈ prev → p ta = true → p tb = true →
  List.filter p (contents prev (reorderTasks (id ta) (id tb) prev))
  = contents (List.filter p prev)
      (reorderTasks (id ta) (id tb) (List.filter p prev)).
Proof.
  intros Hnd Ha Hb Hpa Hpb.
  apply list_elem_of_split in Ha as (l1 & r & ->).
  apply elem_of_app in Hb as [Hb|[->|Hb]%elem_of_cons].
  - (* the target is above: the task moves up *)
    apply list_elem_of_split in Hb as (l1' & l2 & ->).
    rewrite <- app_assoc in *. cbn [app] in *.
    destruct (NoDup_ids_split _ _ _ Hnd) as (Hb1 & _ & _ & _).
    replace (l1' ++ tb :: l2 ++ ta :: r) with ((l1' ++ tb :: l2) ++ ta :: r) in Hnd
      by (by rewrite <- app_assoc).
    destruct (NoDup_ids_split _ _ _ Hnd) as (Ha1 & _ & _ & _).
    rewrite reorderTasks_backward by done. cbn [contents]. split_filter.
    rewrite reorderTasks_backward; [done|by apply filter_absent_id|].
    rewrite <- (filter_cons_true p tb) by done. rewrite <- List.filter_app.
    by apply filter_absent_id.
  - by rewrite !reorderTasks_same_id.
  - (* the target is below: the task moves down *)
    apply list_elem_of_split in Hb as (l2 & l3 & ->).
    destruct (NoDup_ids_split _ _ _ Hnd) as (Ha1 & _ & _ & _).
    replace (l1 ++ ta :: l2 ++ tb :: l3) with ((l1 ++ ta :: l2) ++ tb :: l3) in Hnd
      by (by rewrite <- app_assoc).
    destruct (NoDup_ids_split _ _ _ Hnd) as (Hb1 & _ & _ & _).
    rewrite reorderTasks_forward by done. cbn [contents]. split_filter.
    rewrite reorderTasks_forward; [done|by apply filter_absent_id|].
    rewrite <- (filter_cons_true p ta) by done. rewrite <- List.filter_app.
    by apply filter_absent_id.
Qed.

(** X15.  Dragging in a filtered view: [handleDragEnd] of [TaskList.tsx]
    receives the ids of two visible tasks and reorders the whole collection,
    and the visible list that results is the visible list reordered by the
    same move (ids being distinct). *)
Theorem drag_reorders_the_visible_list JSON_stringify localStorage
    active over st :
  NoDup (id <$> tasks st) →
  active ∈ id <$> filteredTasks st →
  over ∈ id <$> filteredTasks st →
  filteredTasks
    (TaskList.handleDragEnd JSON_stringify localStorage active (Some over) st)
  = contents (filteredTasks st)
      (reorderTasks active over (filteredTasks st)).
Proof.
  intros Hnd (ta & -> & Ha)%list_elem_of_fmap (tb & -> & Hb)%list_elem_of_fmap.
  unfold TaskList.handleDragEnd. case_bool_decide as Hne.
  - unfold filteredTasks in *.
    destruct (filters_dispatch_tasks JSON_stringify localStorage
                (Reorder (id ta) (id tb)) st) as [-> ->]; [done..|].
    rewrite tasks_dispatch. cbn [updater].
    apply filter_elem_of in Ha as [Ha Hpa]. apply filter_elem_of in Hb as [Hb Hpb].
    by apply filter_reorder_visible.
  - rewrite Hne. by rewrite reorderTasks_same_id.
Qed.

Lemma drag_reorders_the_visible_list_witness :
  let st := {| tasks := sample_tasks; filterStatus := FilterStatus.active;
               filterPriority := PriorityFilter.all; storageError := None |} in
  filteredTasks
    (TaskList.handleDragEnd sample_stringify storage_ok (u16 "c") (Some (u16 "a")) st)
  = contents (filteredTasks st)
      (reorderTasks (u16 "c") (u16 "a") (filteredTasks st)).
Proof.
  intros st. apply drag_reorders_the_visible_list; by_evaluation.
Defined.

(** ** Invariants of the store *)

Lemma ids_map (f : Task → Task) (l : list Task) :
  (∀ t, id (f t) = id t) → id <$> map f l = id <$> l.
Proof.
  intros Hf. induction l as [|t l IH]; [done|].
  cbn [map]. rewrite !fmap_cons, Hf. by f_equal.
Qed.

(** X16.  Distinct ids stay distinct under every call of the hook, provided
    the id generated for an [addTask] is not already in the collection. *)
Theorem ids_stay_distinct JSON_stringify localStorage a st :
  NoDup (id <$> tasks st) →
  (∀ input uuid now, a = Add input uuid now → uuid ∉ id <$> tasks st) →
  NoDup (id <$> tasks (dispatch JSON_stringify localStorage a st)).
Proof.
  intros Hnd Hfresh. rewrite tasks_dispatch.
  destruct a; cbn [updater contents].
  - cbn [addTask contents]. rewrite fmap_cons. apply NoDup_cons. split; [|done].
    by apply (Hfresh input uuid now).
  - cbn [toggleTask contents]. rewrite ids_map; [done|].
    intros t. by destruct (bool_decide _).
  - cbn [deleteTask contents].
    apply (sublist_NoDup _ (id <$> tasks st)); [done|].
    apply fmap_sublist, filter_sublist.
  - cbn [clearCompleted contents].
    apply (sublist_NoDup _ (id <$> tasks st)); [done|].
    apply fmap_sublist, filter_sublist.
  - cbn [updateTask contents]. rewrite ids_map; [done|].
    intros t. by destruct (bool_decide _).
  - by rewrite <- (reorderTasks_Permutation activeId overId (tasks st)).
  - done.
  - done.
Qed.

Lemma ids_stay_distinct_witness :
  NoDup (id <$> tasks (dispatch sample_stringify storage_ok
                         (Add sample_input (u16 "id-9") (u16 "2026-02-20T00:00:00.000Z"))
                         (sample_state sample_tasks None)))
  ∧ NoDup (id <$> tasks (dispatch sample_stringify storage_ok
                           (Reorder (u16 "c") (u16 "a"))
                           (sample_state sample_tasks None))).
Proof.
  split; apply ids_stay_distinct.
  - by_evaluation.
  - intros input uuid now [= _ <- _]. by_evaluation.
  - by_evaluation.
  - intros input uuid now [=].
Defined.

Lemma filter_none {A} (p : A → bool) (l : list A) :
  (∀ x, x ∈ l → p x = false) → List.filter p l = [].
Proof.
  induction l as [|x l IH]; intros H; simpl; [done|].
  rewrite (H x) by (by left). apply IH. intros y Hy. apply H. by right.
Qed.

(** X17.  After [clearCompleted] the collection is the [active] view of
    before: no completed task is left, the number of active tasks is
    unchanged, and a second [clearCompleted] changes nothing. *)
Theorem clearCompleted_leaves_the_active_tasks JSON_stringify localStorage st :
  let st' := dispatch JSON_stringify localStorage ClearCompleted st in
  stats st' = {| Stats.total := Stats.active (stats st);
                 Stats.active := Stats.active (stats st);
                 Stats.completed := 0 |}
  ∧ tasks st' = filteredTasks
                  (setFilterPriority PriorityFilter.all
                     (setFilterStatus FilterStatus.active st))
  ∧ ∀ localStorage',
      tasks (dispatch JSON_stringify localStorage' ClearCompleted st') = tasks st'.
Proof.
  cbn zeta. unfold stats. rewrite !tasks_dispatch.
  cbn [updater clearCompleted contents]. split; [|split].
  - f_equal.
    + by rewrite filter_filter_idem.
    + rewrite filter_none; [done|]. intros t Ht.
      apply filter_elem_of in Ht as [_ Ht]. by apply negb_true_iff.
  - unfold filteredTasks. simpl. apply List.filter_ext. intros t.
    by rewrite andb_true_r.
  - intros ls'. rewrite tasks_dispatch. cbn [updater clearCompleted contents].
    apply filter_filter_idem.
Qed.

Lemma toggleTask_split i l1 t l2 :
  id t = i → i ∉ id <$> l1 → i ∉ id <$> l2 →
  contents (l1 ++ t :: l2) (toggleTask i (l1 ++ t :: l2)) = l1 ++ toggle t :: l2.
Proof.
  intros Ht H1 H2. cbn [contents toggleTask]. rewrite map_app. simpl.
  rewrite (bool_decide_eq_true_2 _ Ht).
  assert (∀ l, i ∉ id <$> l →
            map (λ t, if bool_decide (id t = i) then toggle t else t) l = l) as Hsame.
  { intros l Hl. rewrite <- (map_id l) at 2. apply map_ext_lookup. intros u Hu.
    rewrite bool_decide_eq_false_2; [done|]. intros <-. apply Hl.
    by apply list_elem_of_fmap_2. }
  by rewrite !Hsame.
Qed.

(** X18.  With distinct ids, toggling a task of the collection moves exactly
    one task from one count to the other: [stats.total] is unchanged and
    [stats.active], [stats.completed] change by one in opposite directions. *)
Theorem toggleTask_moves_one_count JSON_stringify localStorage i k t st :
  NoDup (id <$> tasks st) → tasks st !! k = Some t → id t = i →
  let st' := dispatch JSON_stringify localStorage (Toggle i) st in
  Stats.total (stats st') = Stats.total (stats st)
  ∧ (completed t = false →
       Stats.active (stats st') + 1 = Stats.active (stats st)
       ∧ Stats.completed (stats st') = Stats.completed (stats st) + 1)
  ∧ (completed t = true →
       Stats.active (stats st') = Stats.active (stats st) + 1
       ∧ Stats.completed (stats st') + 1 = Stats.completed (stats st)).
Proof.
  intros Hnd Hk Hi. cbn zeta. unfold stats. rewrite tasks_dispatch.
  cbn [updater Stats.total Stats.active Stats.completed].
  rewrite <- (take_drop_middle _ _ _ Hk) in Hnd |- *.
  destruct (NoDup_ids_split _ _ _ Hnd) as (H1 & H2 & _ & _). rewrite Hi in H1, H2.
  rewrite (toggleTask_split i _ _ _ Hi H1 H2).
  rewrite !List.filter_app, !length_app. cbn [List.filter toggle completed length].
  split; [done|].
  split; intros ->; cbn [negb length]; lia.
Qed.

Lemma toggleTask_moves_one_count_witness :
  let st := sample_state sample_tasks None in
  let st' := dispatch sample_stringify storage_ok (Toggle (u16 "b")) st in
  Stats.active (stats st') = Stats.active (stats st) + 1
  ∧ Stats.completed (stats st') + 1 = Stats.completed (stats st).
Proof.
  intros st st'.
  apply (toggleTask_moves_one_count sample_stringify storage_ok (u16 "b") 1
           (sample_task "b" true) st); first [reflexivity | by_evaluation].
Defined.



(** ** The add-task form and the inline editor *)

Lemma sanitizeTitle_trimmed html :
  trim (Sanitize.sanitizeTitle html) = Sanitize.sanitizeTitle html.
Proof. unfold Sanitize.sanitizeTitle. apply trim_idempotent. Qed.

(** X20.  The add-task form: when the editor holds no text the submit does
    nothing; otherwise it prepends exactly one task, whose title is
    [sanitizeTitle] of the editor content (the store's own [trim] finds
    nothing left to trim), with the chosen priority and the date field (an
    empty field giving no due date), and it empties the editor, so that
    submitting again adds nothing. *)
Theorem submit_adds_one_sanitized_task JSON_stringify localStorage uuid now
    html formats f st :
  let typed := AddTask.handleInput html formats f in
  let after := AddTask.submit_form JSON_stringify localStorage uuid now (typed, st) in
  (AddTask.hasContent typed = false → after = (typed, st))
  ∧ (AddTask.hasContent typed = true →
       tasks after.2 =
         {| id := uuid;
            title := Sanitize.sanitizeTitle html;
            completed := false;
            priority := AddTask.priority_choice f;
            createdAt := now;
            dueDate := match AddTask.dueDate_field f with
                       | [] => None
                       | _ :: _ => Some (AddTask.dueDate_field f)
                       end |} :: tasks st
       ∧ AddTask.innerHTML after.1 = []
       ∧ AddTask.hasContent after.1 = false
       ∧ ∀ localStorage' uuid' now',
           AddTask.submit_form JSON_stringify localStorage' uuid' now' after = after).
Proof.
  cbn zeta. unfold AddTask.submit_form, AddTask.handleInput.
  cbn [AddTask.innerHTML AddTask.hasContent AddTask.priority_choice
       AddTask.dueDate_field].
  unfold submit.
  destruct (Sanitize.plainText html) as [|c text] eqn:Htext.
  - split; [done|]. intros [=].
  - split; [intros [=]|]. intros _. cbn [fst snd AddTask.innerHTML AddTask.hasContent].
    rewrite tasks_dispatch. cbn [updater addTask contents new_task input_title
      input_priority input_dueDate].
    split; [|by repeat split].
    unfold new_task. cbn [input_title input_priority input_dueDate].
    by rewrite sanitizeTitle_trimmed.
Qed.

Lemma submit_adds_one_sanitized_task_witness :
  let typed html := AddTask.handleInput (u16 html) (true, false, false) AddTask.initial in
  let after html :=
    AddTask.submit_form sample_stringify storage_ok
      (u16 "id-9") (u16 "2026-02-20T00:00:00.000Z")
      (typed html, sample_state sample_tasks None) in
  after "<b> </b><br>"%string = (typed "<b> </b><br>"%string, sample_state sample_tasks None)
  ∧ tasks (after "<b>Buy</b> milk"%string).2 =
      {| id := u16 "id-9"; title := u16 "<strong>Buy</strong> milk";
         completed := false; priority := medium;
         createdAt := u16 "2026-02-20T00:00:00.000Z"; dueDate := None |}
      :: sample_tasks.
Proof.
  intros typed after. split.
  - destruct (submit_adds_one_sanitized_task sample_stringify storage_ok
                (u16 "id-9") (u16 "2026-02-20T00:00:00.000Z")
                (u16 "<b> </b><br>") (true, false, false) AddTask.initial
                (sample_state sample_tasks None)) as [Hempty _].
    apply Hempty. reflexivity.
  - destruct (submit_adds_one_sanitized_task sample_stringify storage_ok
                (u16 "id-9") (u16 "2026-02-20T00:00:00.000Z")
                (u16 "<b>Buy</b> milk") (true, false, false) AddTask.initial
                (sample_state sample_tasks None)) as [_ Htext].
    destruct (Htext eq_refl) as [Hadded _]. exact Hadded.
Defined.

(** X21.  A key press in the add-task editor changes the store only if it is
    Enter without Shift on an editor that holds text. *)
Theorem handleKeyDown_adds_only_on_plain_Enter JSON_stringify localStorage
    uuid now key shiftKey f st :
  key ≠ u16 "Enter" ∨ shiftKey = true ∨ Sanitize.plainText (AddTask.innerHTML f) = [] →
  (AddTask.handleKeyDown JSON_stringify localStorage uuid now key shiftKey (f, st)).2
  = st.
Proof.
  intros H. unfold AddTask.handleKeyDown.
  assert ((if bool_decide (key = u16 "Enter") && negb shiftKey
           then AddTask.submit_form JSON_stringify localStorage uuid now (f, st)
           else (f, st)) = (f, st)) as ->.
  { destruct H as [H|[->|H]].
    - by rewrite bool_decide_eq_false_2.
    - by rewrite andb_false_r.
    - unfold AddTask.submit_form. rewrite H. by destruct (_ && _). }
  by destruct (bool_decide (key = u16 "Escape")).
Qed.

Lemma handleKeyDown_adds_only_on_plain_Enter_witness :
  let typed := AddTask.handleInput (u16 "Buy milk") (false, false, false) AddTask.initial in
  (AddTask.handleKeyDown sample_stringify storage_ok
     (u16 "id-9") (u16 "2026-02-20T00:00:00.000Z")
     (u16 "Enter") true (typed, sample_state sample_tasks None)).2
  = sample_state sample_tasks None.
Proof.
  intros typed. apply handleKeyDown_adds_only_on_plain_Enter.
  right. left. reflexivity.
Defined.

Lemma filter_length_map_eq {A} (p : A → bool) (l1 l2 : list A) :
  map p l1 = map p l2 → length (List.filter p l1) = length (List.filter p l2).
Proof.
  revert l2. induction l1 as [|x l1 IH]; intros [|y l2]; simpl; try done.
  intros [= Hxy Hl]. rewrite Hxy. destruct (p y); simpl; auto.
Qed.

(** X22.  Saving an inline edit ([save] of [TaskItem.tsx]): an edit that
    leaves no text keeps the store as it is; otherwise the tasks with the
    item's id get [sanitizeTitle] of the editor content as their title and
    every other task is kept; in both cases the collection keeps its length
    and its statistics. *)
Theorem save_retitles_one_task JSON_stringify localStorage html task st :
  let st' := TaskItem.save JSON_stringify localStorage html task st in
  (Sanitize.plainText html = [] → st' = st)
  ∧ (Sanitize.plainText html ≠ [] →
       ∀ k t, tasks st !! k = Some t →
         tasks st' !! k =
           Some (if bool_decide (id t = id task)
                 then {| id := id t; title := Sanitize.sanitizeTitle html;
                         completed := completed t; priority := priority t;
                         createdAt := createdAt t; dueDate := dueDate t |}
                 else t))
  ∧ length (tasks st') = length (tasks st)
  ∧ stats st' = stats st.
Proof.
  cbn zeta. unfold TaskItem.save.
  destruct (Sanitize.plainText html) as [|c text]; [by repeat split|].
  split; [done|]. unfold stats. rewrite tasks_dispatch.
  cbn [updater updateTask contents].
  split; [|split].
  - intros _ k t Hk. rewrite lookup_map, Hk. done.
  - apply length_map.
  - rewrite length_map. f_equal.
    + apply filter_length_map_eq. rewrite map_map. apply map_ext.
      intros t. by destruct (bool_decide _).
    + apply filter_length_map_eq. rewrite map_map. apply map_ext.
      intros t. by destruct (bool_decide _).
Qed.

Lemma save_retitles_one_task_witness :
  let edited html :=
    TaskItem.save sample_stringify storage_ok (u16 html) (sample_task "b" true)
      (sample_state sample_tasks None) in
  edited "<br>"%string = sample_state sample_tasks None
  ∧ tasks (edited "<i>New</i> title"%string) !! 1 =
      Some {| id := u16 "b"; title := u16 "<em>New</em> title"; completed := true;
              priority := medium; createdAt := u16 "2026-01-01T00:00:00.000Z";
              dueDate := None |}.
Proof.
  intros edited. split.
  - apply (save_retitles_one_task sample_stringify storage_ok (u16 "<br>")
             (sample_task "b" true) (sample_state sample_tasks None)).
    reflexivity.
  - destruct (save_retitles_one_task sample_stringify storage_ok
                (u16 "<i>New</i> title") (sample_task "b" true)
                (sample_state sample_tasks None)) as (_ & Hedit & _).
    apply (Hedit ltac:(by_evaluation) 1 (sample_task "b" true)). reflexivity.
Defined.
